(** * Shell Material Assigner: shell detection and material assignment

    A shallow embedding of [shell_material_assigner.py].  The first part
    embeds the breadth-first search of [get_mesh_shells] (the loops that
    follow the construction of [face_connections]); the second part embeds
    [assign_random_materials_from_list] over an abstract host scene; the
    third part embeds the callbacks of the window, [select_object_button],
    [add_selected_materials] and [apply_materials_button]. *)

From stdpp Require Import gmap strings pretty list fin_maps relations.

Set Warnings "-clear-no-such-hyp".

Local Open Scope Z_scope.

(** ** Shell detection *)

Module Shells.

(** [face_connections]: a dict from a face id to the list of the ids of the
    faces connected to it.  Face ids are Python integers. *)
Abbreviation AdjacencyMap := (gmap Z (list Z)).

(** The loop over the polygon iterator: every polygon contributes its index
    and its connected faces, and the counter is incremented. *)
Definition collect_faces (polys : list (Z * list Z)) : Z * AdjacencyMap :=
  foldl (λ acc p, (acc.1 + 1, <[p.1 := p.2]> acc.2)) (0, ∅) polys.

(** [range(face_count)]. *)
Definition range (face_count : Z) : list Z := seqZ 0 face_count.

(** [face_connections.get(current, [])]. *)
Definition neighbors_of (face_connections : AdjacencyMap) (current : Z) : list Z :=
  default [] (face_connections !! current).

(** [for n in neighbors: if n not in visited: queue.append(n)]. *)
Definition enqueue_neighbors (visited : gset Z) (neighbors queue : list Z) : list Z :=
  foldl (λ q n, if decide (n ∈ visited) then q else q ++ [n]) queue neighbors.

(** [while queue: ...].  One unit of [fuel] is spent per iteration of the
    loop; [None] means that the fuel ran out before the queue was empty.
    The result is the pair of [visited] and [shell] when the loop exits. *)
Fixpoint bfs_loop (fuel : nat) (face_connections : AdjacencyMap)
    (visited : gset Z) (shell queue : list Z) : option (gset Z * list Z) :=
  match queue with
  | [] => Some (visited, shell)
  | current :: queue =>
    match fuel with
    | O => None
    | S fuel =>
      if decide (current ∈ visited) then
        bfs_loop fuel face_connections visited shell queue
      else
        let visited := {[current]} ∪ visited in
        let shell := shell ++ [current] in
        let neighbors := neighbors_of face_connections current in
        bfs_loop fuel face_connections visited shell
          (enqueue_neighbors visited neighbors queue)
    end
  end.

(** [for i in range(face_count): ...] over the remaining ids, threading
    [visited] and [shells]. *)
Fixpoint shells_loop (fuel : nat) (face_connections : AdjacencyMap)
    (ids : list Z) (visited : gset Z) (shells : list (list Z))
    : option (gset Z * list (list Z)) :=
  match ids with
  | [] => Some (visited, shells)
  | i :: ids =>
    if decide (i ∈ visited) then
      shells_loop fuel face_connections ids visited shells
    else
      match bfs_loop fuel face_connections visited [] [i] with
      | None => None
      | Some (visited, shell) =>
        shells_loop fuel face_connections ids visited (shells ++ [shell])
      end
  end.

(** The search of [get_mesh_shells] with [fuel] iterations allowed to each
    run of the inner loop. *)
Definition detect_shells (fuel : nat) (face_count : Z)
    (face_connections : AdjacencyMap) : option (list (list Z)) :=
  snd <$> shells_loop fuel face_connections (range face_count) ∅ [].

(** A bound on the iterations of one run of the inner loop: one for the
    start face, and for every entry of the map one for the face and one for
    each of its listed neighbours. *)
Definition weight (m : AdjacencyMap) : nat :=
  map_fold (λ _ l acc, S (length l + acc))%nat 0%nat m.

Definition bfs_fuel (face_connections : AdjacencyMap) : nat :=
  S (weight face_connections).

(** The search of [get_mesh_shells] on the ids of the faces. *)
Definition get_mesh_shells_ids (face_count : Z)
    (face_connections : AdjacencyMap) : option (list (list Z)) :=
  detect_shells (bfs_fuel face_connections) face_count face_connections.

(** ["%s.f[%d]" % (obj_name, fid)]. *)
Definition face_name (obj_name : string) (fid : Z) : string :=
  obj_name +:+ ".f[" +:+ pretty fid +:+ "]".

(** [get_mesh_shells], on the polygons that the iterator of the mesh
    yields: the index of each polygon with its connected faces. *)
Definition get_mesh_shells (obj_name : string) (polys : list (Z * list Z))
    : option (list (list string)) :=
  let (face_count, face_connections) := collect_faces polys in
  shells ← get_mesh_shells_ids face_count face_connections;
  Some (map (λ shell_ids, map (face_name obj_name) shell_ids) shells).

(** *** The adjacency graph *)

(** [edge fc x y]: face [y] is listed among the neighbours of face [x]. *)
Definition edge (fc : AdjacencyMap) (x y : Z) : Prop := y ∈ neighbors_of fc x.

(** A path of adjacency edges from [x] to [y]. *)
Definition connected (fc : AdjacencyMap) : relation Z := rtc (edge fc).

(** Whenever [y] is listed for [x], [x] is listed for [y]. *)
Definition symmetric (fc : AdjacencyMap) : Prop :=
  map_Forall (λ x l, Forall (λ y, x ∈ neighbors_of fc y) l) fc.

(** Every id listed in the map lies in [0, face_count). *)
Definition in_range (face_count : Z) (fc : AdjacencyMap) : Prop :=
  map_Forall (λ _ l, Forall (λ y, 0 ≤ y < face_count) l) fc.

(** No id listed in the map is negative. *)
Definition non_negative (fc : AdjacencyMap) : Prop :=
  map_Forall (λ _ l, Forall (λ y, 0 ≤ y) l) fc.

(** The face [i] has no entry or an empty one, and no entry lists it. *)
Definition isolated (fc : AdjacencyMap) (i : Z) : Prop :=
  neighbors_of fc i = [] ∧ map_Forall (λ _ l, i ∉ l) fc.

#[global] Instance symmetric_dec fc : Decision (symmetric fc).
Proof. unfold symmetric. apply _. Defined.
#[global] Instance in_range_dec face_count fc : Decision (in_range face_count fc).
Proof. unfold in_range. apply _. Defined.
#[global] Instance non_negative_dec fc : Decision (non_negative fc).
Proof. unfold non_negative. apply _. Defined.
#[global] Instance isolated_dec fc i : Decision (isolated fc i).
Proof. unfold isolated. apply _. Defined.

(** A set of faces that no edge leaves. *)
Definition closed (fc : AdjacencyMap) (V : gset Z) : Prop :=
  ∀ x y, x ∈ V → edge fc x y → y ∈ V.

(** What one run of the inner loop, started at the unvisited face [i] with
    the visited set [V], collects. *)
Record component (fc : AdjacencyMap) (V : gset Z) (i : Z) (s : list Z) : Prop := {
  component_head : head s = Some i;
  component_NoDup : NoDup s;
  component_fresh : ∀ x, x ∈ s → x ∉ V;
  component_reach : ∀ x, x ∈ s → connected fc i x;
  component_closed : ∀ x y, x ∈ s → edge fc x y → y ∈ s ∨ y ∈ V;
}.

(** What the outer loop appends to [shells] when it runs over [ids] from
    the visited set [V]. *)
Inductive shells_from (fc : AdjacencyMap) : gset Z → list Z → list (list Z) → Prop :=
  | shells_from_nil V : shells_from fc V [] []
  | shells_from_skip V i ids shells :
      i ∈ V → shells_from fc V ids shells → shells_from fc V (i :: ids) shells
  | shells_from_shell V i ids s shells :
      i ∉ V → component fc V i s →
      shells_from fc (list_to_set s ∪ V) ids shells →
      shells_from fc V (i :: ids) (s :: shells).

(** The smallest face id of a shell. *)
Definition shell_min (s : list Z) : option Z :=
  match s with
  | [] => None
  | x :: s => Some (foldr Z.min x s)
  end.

(** The smallest ids of consecutive shells ascend strictly. *)
Definition min_ascending (shells : list (list Z)) : Prop :=
  ∀ k s s' m m',
    shells !! k = Some s → shells !! S k = Some s' →
    shell_min s = Some m → shell_min s' = Some m' → m < m'.

(** Every shell starts at the lowest id of the range that is in no earlier
    shell. *)
Definition starts_lowest (face_count : Z) (shells : list (list Z)) : Prop :=
  ∀ k s, shells !! k = Some s →
    ∃ i, head s = Some i ∧ 0 ≤ i < face_count ∧
      (i ∉ concat (take k shells)) ∧
      ∀ j, 0 ≤ j < i → j ∈ concat (take k shells).

(** Every face of [s] after the first is listed as a neighbour by a face
    that stands before it in [s]. *)
Definition tree_ordered (fc : AdjacencyMap) (s : list Z) : Prop :=
  ∀ k x, s !! k = Some x → (0 < k)%nat →
    ∃ k' p, (k' < k)%nat ∧ s !! k' = Some p ∧ edge fc p x.

(** *** The search as a transition system

    The same lines 36-58, one program point at a time.  A configuration
    holds the variables that are live at the point: the ids that
    [for i in range(face_count)] has still to yield, [visited], [shells],
    and inside the loops [shell], [queue] and the neighbours that
    [for n in neighbors] has still to yield. *)
Inductive config : Type :=
  | AtFor (ids : list Z) (visited : gset Z) (shells : list (list Z))
  | AtWhile (ids : list Z) (visited : gset Z) (shells : list (list Z))
      (shell queue : list Z)
  | AtNeighbors (ids : list Z) (visited : gset Z) (shells : list (list Z))
      (shell queue pending : list Z)
  | Done (shells : list (list Z)).


(** The configuration before the first iteration: [visited = set()],
    [shells = []]. *)
Definition start (face_count : Z) : config := AtFor (range face_count) ∅ [].


(** A mesh as the polygon iterator yields it: the polygon at position [k]
    has the index [k], and it is connected to polygons of the mesh only. *)
Definition well_formed_mesh (polys : list (Z * list Z)) : Prop :=
  polys.*1 = seqZ 0 (Z.of_nat (length polys)) ∧
  Forall (λ p, Forall (λ y, 0 ≤ y < Z.of_nat (length polys)) p.2) polys.

#[global] Instance well_formed_mesh_dec polys : Decision (well_formed_mesh polys).
Proof. unfold well_formed_mesh. apply _. Defined.

End Shells.

(** ** Material assignment *)

Module Materials.

Local Open Scope nat_scope.

(** The commands of the host that [assign_random_materials_from_list]
    calls, each with the value that the call returned. *)
Inductive call : Type :=
  | CallError (msg : string)
  | CallWarning (msg : string)
  | CallObjExists (name : string) (result : bool)
  | CallListConnections (name : string) (result : option (list string))
  | CallSetsCreate (name : string) (result : string)
  | CallConnectAttr (src dst : string)
  | CallSetsForceElement (faces : list string) (sg : string).

(** The host application.  [World] is its state: the scene and the state of
    the random generator.  [listConnections] is the query restricted to
    [type="shadingEngine"], [sets_create] is
    [sets(renderable=True, noSurfaceShader=True, empty=True, name=...)] and
    returns the name of the new set, [connectAttr] is called with
    [force=True], [sets_forceElement] is [sets(faces, edit=True,
    forceElement=sg)], and [random_draw] gives the number from which
    [random.choice] derives an index. *)
Class Host (World : Type) : Type := {
  objExists : string → World → bool;
  listConnections : string → World → option (list string);
  sets_create : string → World → string * World;
  connectAttr : string → string → World → World;
  sets_forceElement : list string → string → World → World;
  random_draw : World → nat * World;
}.

(** The state threaded through the function: the host and the calls made so
    far. *)
Record state (World : Type) : Type := State {
  world : World;
  calls : list call;
}.
Arguments State {World} _ _.
Arguments world {World} _.
Arguments calls {World} _.

(** A statement either completes with a value or raises an exception. *)
Inductive outcome (A : Type) : Type :=
  | Returned (a : A)
  | Raised (msg : string).
Arguments Returned {A} _.
Arguments Raised {A} _.

Definition M (World A : Type) : Type := state World → outcome A * state World.

#[global] Instance M_ret {World} : MRet (M World) :=
  λ A a st, (Returned a, st).

#[global] Instance M_bind {World} : MBind (M World) :=
  λ A B f m st,
    match m st with
    | (Returned a, st) => f a st
    | (Raised msg, st) => (Raised msg, st)
    end.

Definition log {World} (c : call) (st : state World) : state World :=
  State (world st) (calls st ++ [c]).

Section Commands.
Context {World : Type} `{!Host World}.

(** [cmds.error(msg)] raises a [RuntimeError]. *)
Definition error {A} (msg : string) : M World A :=
  λ st, (Raised msg, log (CallError msg) st).

Definition warning (msg : string) : M World unit :=
  λ st, (Returned (), log (CallWarning msg) st).

Definition obj_exists (name : string) : M World bool :=
  λ st, let b := objExists name (world st) in
        (Returned b, log (CallObjExists name b) st).

Definition list_connections (name : string) : M World (option (list string)) :=
  λ st, let r := listConnections name (world st) in
        (Returned r, log (CallListConnections name r) st).

Definition sets_new (name : string) : M World string :=
  λ st, let (sg, w) := sets_create name (world st) in
        (Returned sg, State w (calls st ++ [CallSetsCreate name sg])).

Definition connect_attr (src dst : string) : M World unit :=
  λ st, (Returned (),
         State (connectAttr src dst (world st))
               (calls st ++ [CallConnectAttr src dst])).

Definition sets_force_element (faces : list string) (sg : string) : M World unit :=
  λ st, (Returned (),
         State (sets_forceElement faces sg (world st))
               (calls st ++ [CallSetsForceElement faces sg])).

(** [random.choice(seq)]: the element at an index below [len(seq)];
    an [IndexError] on an empty sequence. *)
Definition choice (seq : list string) : M World string :=
  λ st, let (r, w) := random_draw (world st) in
        match seq !! (r mod length seq) with
        | Some x => (Returned x, State w (calls st))
        | None => (Raised "Cannot choose from an empty sequence", State w (calls st))
        end.

(** A [for] loop whose body updates the variables [acc]. *)
Fixpoint for_each {A S} (body : S → A → M World S) (l : list A) (acc : S)
    : M World S :=
  match l with
  | [] => mret acc
  | x :: l => acc ← body acc x; for_each body l acc
  end.

Definition missing_message (material : string) : string :=
  "Material does not exist: " +:+ material.

(** The body of [for material in material_list]. *)
Definition resolve_material (shading_groups : list string) (material : string)
    : M World (list string) :=
  found ← obj_exists material;
  if negb found then
    warning (missing_message material);; mret shading_groups
  else
    sgs ← list_connections material;
    match sgs with
    | Some (sg0 :: _) => mret (shading_groups ++ [sg0])
    | _ =>
      sg ← sets_new (material +:+ "SG");
      connect_attr (material +:+ ".outColor") (sg +:+ ".surfaceShader");;
      mret (shading_groups ++ [sg])
    end.

(** The body of [for shell_faces in shells]. *)
Definition assign_shell (shading_groups : list string) (_ : unit)
    (shell_faces : list string) : M World unit :=
  sg ← choice shading_groups;
  sets_force_element shell_faces sg.

Definition empty_message : string := "Material list is empty.".
Definition unavailable_message : string :=
  "No available shading groups for assignment.".

Definition assign_random_materials_from_list
    (shells : list (list string)) (material_list : list string) : M World unit :=
  (if bool_decide (material_list = []) then error empty_message else mret ());;
  shading_groups ← for_each resolve_material material_list [];
  (if bool_decide (shading_groups = []) then error unavailable_message
   else mret ());;
  for_each (assign_shell shading_groups) shells ().
End Commands.

(** *** Readings of the list of calls *)

(** The names whose existence was queried, with the answers. *)
Definition checked (cs : list call) : list (string * bool) :=
  omap (λ c, match c with CallObjExists n b => Some (n, b) | _ => None end) cs.

Definition warnings (cs : list call) : list string :=
  omap (λ c, match c with CallWarning msg => Some msg | _ => None end) cs.

Definition errors (cs : list call) : list string :=
  omap (λ c, match c with CallError msg => Some msg | _ => None end) cs.

(** The assignments of faces to a shading group. *)
Definition assignments (cs : list call) : list (list string * string) :=
  omap (λ c, match c with CallSetsForceElement f sg => Some (f, sg) | _ => None end) cs.

(** The names that were queried and did not exist. *)
Definition missing (cs : list call) : list string :=
  (filter (λ p, p.2 = false) (checked cs)).*1.

(** [sg] is the shading group that the calls [cs] obtained for a material
    of the list that exists: the first one connected to it, or the one
    created for it. *)
Definition backs (cs : list call) (material_list : list string) (sg : string) : Prop :=
  ∃ material, material ∈ material_list ∧
    CallObjExists material true ∈ cs ∧
    ((∃ rest, CallListConnections material (Some (sg :: rest)) ∈ cs) ∨
     CallSetsCreate (material +:+ "SG") sg ∈ cs).

(** The first shading engine connected to [material], when there is one:
    [sgs[0]] under [if sgs]. *)
Definition connected_group {World : Type} `{!Host World}
    (w : World) (material : string) : option string :=
  match listConnections material w with
  | Some (sg :: _) => Some sg
  | _ => None
  end.

(** The shading groups of the names of the list that exist, when each of
    them has a shading engine connected: one per name, in order. *)
Definition connected_groups {World : Type} `{!Host World}
    (w : World) (material_list : list string) : list string :=
  omap (λ m, if objExists m w then connected_group w m else None) material_list.

(** Every name of the list that exists has a shading engine connected. *)
Definition all_connected {World : Type} `{!Host World}
    (w : World) (material_list : list string) : Prop :=
  Forall (λ m, objExists m w = true → is_Some (connected_group w m)) material_list.

(** The calls that create a shading group or connect one. *)
Definition creates (c : call) : Prop :=
  match c with
  | CallSetsCreate _ _ | CallConnectAttr _ _ => True
  | _ => False
  end.

(** *** A small host, to run the function on concrete scenes *)

Record scene : Type := Scene {
  materials : list string;
  engines : list string;
  connections : list (string * string);
  members : list (list string * string);
  seed : nat;
}.

#[global] Instance scene_host : Host scene := {|
  objExists n w := bool_decide (n ∈ materials w ++ engines w);
  listConnections n w :=
    match filter (λ sg, (n +:+ ".outColor", sg +:+ ".surfaceShader") ∈ connections w)
                 (engines w) with
    | [] => None
    | l => Some l
    end;
  sets_create n w :=
    (n, Scene (materials w) (engines w ++ [n]) (connections w) (members w) (seed w));
  connectAttr src dst w :=
    Scene (materials w) (engines w) (connections w ++ [(src, dst)]) (members w) (seed w);
  sets_forceElement faces sg w :=
    Scene (materials w) (engines w) (connections w) (members w ++ [(faces, sg)]) (seed w);
  random_draw w :=
    (seed w, Scene (materials w) (engines w) (connections w) (members w) (S (seed w)));
|}.

Definition sample_scene : scene :=
  Scene ["red"; "blue"] ["redSG"] [("red.outColor", "redSG.surfaceShader")] [] 1.

Definition sample_shells : list (list string) :=
  [["cube.f[0]"; "cube.f[1]"]; ["cube.f[2]"]].

End Materials.

(** ** The callbacks of the window *)

Module Glue.
Import Shells Materials.

(** [get_mesh_shells] with the fuel of the model removed: the search always
    completes (see [get_mesh_shells_names_eq]). *)
Definition get_mesh_shells_names (obj_name : string)
    (polys : list (Z * list Z)) : list (list string) :=
  default [] (get_mesh_shells obj_name polys).

(** The commands of the window, and [print]. *)
Inductive gui_call : Type :=
  | GuiTextFieldEdit (field text : string)
  | GuiListAppend (list_name item : string)
  | GuiPrint (line : string).

(** The part of the host that the callbacks use besides [Host]:
    [ls_selection] is [cmds.ls(selection=True)], [ls_selected_materials] is
    [cmds.ls(selection=True, materials=True)], [textField_text] and
    [textScrollList_allItems] are the queries of the two widgets,
    [objectType_isType] and [listRelatives_shapes_mesh] are the two tests of
    the selected object, [mesh_polygons] is what the polygon iterator of
    [get_mesh_shells] yields for an object, [time_time] is a reading of the
    clock and [format_seconds start stop] is ["%.4f" % (stop - start)]. *)
Class Gui (World : Type) : Type := {
  Time : Type;
  ls_selection : World → option (list string);
  ls_selected_materials : World → option (list string);
  textField_text : string → World → string;
  textField_edit : string → string → World → World;
  objectType_isType : string → string → World → bool;
  listRelatives_shapes_mesh : string → World → option (list string);
  textScrollList_allItems : string → World → option (list string);
  textScrollList_append : string → string → World → World;
  mesh_polygons : string → World → list (Z * list Z);
  time_time : World → Time * World;
  format_seconds : Time → Time → string;
}.

(** The state threaded through a callback: the state of the assignment,
    the calls to the window, and the global [selected_object] of the
    module, which is [None] as long as nothing defines it. *)
Record session (World : Type) : Type := Session {
  host : state World;
  gui : list gui_call;
  selected_object : option (list string);
}.
Arguments Session {World} _ _ _.
Arguments host {World} _.
Arguments gui {World} _.
Arguments selected_object {World} _.

Definition G (World A : Type) : Type :=
  session World → outcome A * session World.

#[global] Instance G_ret {World} : MRet (G World) :=
  λ A a s, (Returned a, s).

#[global] Instance G_bind {World} : MBind (G World) :=
  λ A B f m s,
    match m s with
    | (Returned a, s) => f a s
    | (Raised msg, s) => (Raised msg, s)
    end.

(** The truth value of a list that may be [None]. *)
Definition truthy {A} (l : option (list A)) : bool :=
  match l with
  | Some (_ :: _) => true
  | _ => false
  end.

Section Callbacks.
Context {World : Type} `{!Host World} `{!Gui World}.

(** A command of the assignment, run inside a callback. *)
Definition lift {A} (m : M World A) : G World A :=
  λ s, let (r, st) := m (host s) in (r, Session st (gui s) (selected_object s)).

(** A query of the host. *)
Definition query {A} (q : World → A) : G World A :=
  λ s, (Returned (q (world (host s))), s).

Definition text_field_edit (field text : string) : G World unit :=
  λ s, (Returned (),
        Session (State (textField_edit field text (world (host s))) (calls (host s)))
                (gui s ++ [GuiTextFieldEdit field text]) (selected_object s)).

Definition list_append (list_name item : string) : G World unit :=
  λ s, (Returned (),
        Session (State (textScrollList_append list_name item (world (host s)))
                       (calls (host s)))
                (gui s ++ [GuiListAppend list_name item]) (selected_object s)).

Definition print (line : string) : G World unit :=
  λ s, (Returned (), Session (host s) (gui s ++ [GuiPrint line]) (selected_object s)).

Definition clock : G World Time :=
  λ s, let (t, w) := time_time (world (host s)) in
       (Returned t, Session (State w (calls (host s))) (gui s) (selected_object s)).

(** [selected_object[0] = value]: a [NameError] when the global is not
    defined, an [IndexError] when it is an empty list. *)
Definition set_selected_object (value : string) : G World unit :=
  λ s, match selected_object s with
       | None => (Raised "name 'selected_object' is not defined", s)
       | Some [] => (Raised "list assignment index out of range", s)
       | Some (_ :: rest) =>
         (Returned (), Session (host s) (gui s) (Some (value :: rest)))
       end.

Definition nothing_selected_message : string := "Nothing selected.".

Definition select_object_button : G World unit :=
  sel ← query ls_selection;
  match sel with
  | Some (first :: _) =>
    set_selected_object first;;
    text_field_edit "objectField" first
  | _ => lift (warning nothing_selected_message)
  end.

(** [for mat in selected: if mat not in existing: ...append=mat]. *)
Fixpoint append_new (existing selected : list string) : G World unit :=
  match selected with
  | [] => mret ()
  | mat :: selected =>
    (if bool_decide (mat ∈ existing) then mret ()
     else list_append "materialList" mat);;
    append_new existing selected
  end.

Definition add_selected_materials : G World unit :=
  selected ← query ls_selected_materials;
  if truthy selected then
    existing ← query (textScrollList_allItems "materialList");
    append_new (default [] existing) (default [] selected)
  else mret ().

Definition no_object_message : string := "Object not selected or does not exist.".
Definition no_mesh_message : string := "Selected object is not polygonal geometry.".

Definition timing_line (label : string) (start stop : Time) : string :=
  label +:+ " - " +:+ format_seconds start stop +:+ " sec".

Definition apply_materials_button : G World unit :=
  obj ← query (textField_text "objectField");
  found ← (if bool_decide (obj = "") then mret false else lift (obj_exists obj));
  if negb found then lift (warning no_object_message)
  else
    is_transform ← query (objectType_isType obj "transform");
    shapes ← (if (is_transform : bool)
              then query (listRelatives_shapes_mesh obj) else mret None);
    if negb (truthy shapes) then lift (warning no_mesh_message)
    else
      material_list ← query (textScrollList_allItems "materialList");
      start_shells ← clock;
      polys ← query (mesh_polygons obj);
      let shells := get_mesh_shells_names obj polys in
      end_shells ← clock;
      print (timing_line "get_mesh_shells" start_shells end_shells);;
      start_assign ← clock;
      lift (assign_random_materials_from_list shells (default [] material_list));;
      end_assign ← clock;
      print (timing_line "assign_random_materials_from_list" start_assign end_assign).
End Callbacks.

(** The object named in the field exists, is a transform and has a mesh
    shape: the two tests of [apply_materials_button] pass. *)
Definition valid_selection {World : Type} `{!Host World} `{!Gui World}
    (w : World) : Prop :=
  let obj := textField_text "objectField" w in
  obj ≠ "" ∧ objExists obj w = true ∧
  objectType_isType obj "transform" w = true ∧
  truthy (listRelatives_shapes_mesh obj w) = true.

#[global] Instance valid_selection_dec {World : Type} `{!Host World} `{!Gui World}
    (w : World) : Decision (valid_selection w).
Proof. unfold valid_selection. apply _. Defined.

(** The lines printed and the items appended, read off the calls. *)
Definition printed (cs : list gui_call) : list string :=
  omap (λ c, match c with GuiPrint line => Some line | _ => None end) cs.

Definition appended (cs : list gui_call) : list string :=
  omap (λ c, match c with GuiListAppend _ item => Some item | _ => None end) cs.

Definition edits (cs : list gui_call) : list (string * string) :=
  omap (λ c, match c with GuiTextFieldEdit f t => Some (f, t) | _ => None end) cs.

(** *** A small window over the small host, for concrete runs *)

Record desk : Type := Desk {
  desk_scene : scene;
  object_field : string;
  material_items : list string;
  selection : list string;
  transforms : list string;
  polygons : list (Z * list Z);
  ticks : nat;
}.

Definition with_scene (d : desk) (sc : scene) : desk :=
  Desk sc (object_field d) (material_items d) (selection d) (transforms d)
    (polygons d) (ticks d).

#[global] Instance desk_host : Host desk := {|
  objExists n d := bool_decide (n ∈ transforms d) || objExists n (desk_scene d);
  listConnections n d := listConnections n (desk_scene d);
  sets_create n d :=
    let (sg, sc) := sets_create n (desk_scene d) in (sg, with_scene d sc);
  connectAttr src dst d := with_scene d (connectAttr src dst (desk_scene d));
  sets_forceElement faces sg d :=
    with_scene d (sets_forceElement faces sg (desk_scene d));
  random_draw d :=
    let (r, sc) := random_draw (desk_scene d) in (r, with_scene d sc);
|}.

#[global] Instance desk_gui : Gui desk := {|
  Time := nat;
  ls_selection d := Some (selection d);
  ls_selected_materials d :=
    Some (filter (λ n, n ∈ materials (desk_scene d)) (selection d));
  textField_text f d := if bool_decide (f = "objectField") then object_field d else "";
  textField_edit f t d :=
    if bool_decide (f = "objectField")
    then Desk (desk_scene d) t (material_items d) (selection d) (transforms d)
           (polygons d) (ticks d)
    else d;
  objectType_isType n ty d := bool_decide (ty = "transform" ∧ n ∈ transforms d);
  listRelatives_shapes_mesh n d :=
    if bool_decide (n ∈ transforms d) then Some [n +:+ "Shape"] else None;
  textScrollList_allItems l d :=
    match material_items d with [] => None | items => Some items end;
  textScrollList_append l item d :=
    Desk (desk_scene d) (object_field d) (material_items d ++ [item])
      (selection d) (transforms d) (polygons d) (ticks d);
  mesh_polygons n d := polygons d;
  time_time d :=
    (ticks d, Desk (desk_scene d) (object_field d) (material_items d)
                (selection d) (transforms d) (polygons d) (S (ticks d)));
  format_seconds start stop := pretty (stop - start)%nat +:+ ".0000";
|}.

Definition sample_desk : desk :=
  Desk sample_scene "cube" ["red"; "ghost"] ["blue"; "cube"] ["cube"]
    [(0, [1]); (1, [0]); (2, [])] 0.

Definition sample_session : session desk :=
  Session (State sample_desk []) [] None.

End Glue.

(** * Proofs *)

Import Shells.

(** ** Shell detection *)

(** *** Termination of the inner loop *)

Section Termination.
Implicit Types (fc r : gmap Z (list Z)) (V : gset Z) (q ns : list Z).

Lemma weight_delete r k l :
  r !! k = Some l → weight r = S (length l + weight (delete k r)).
Proof.
  intros Hk. unfold weight.
  apply (map_fold_delete_L (λ _ l acc, S (length l + acc))%nat); [|done].
  intros; lia.
Qed.

Lemma enqueue_neighbors_filter V ns q :
  enqueue_neighbors V ns q = q ++ filter (λ n, n ∉ V) ns.
Proof.
  unfold enqueue_neighbors. revert q.
  induction ns as [|n ns IH]; intros q; simpl.
  - by rewrite app_nil_r.
  - rewrite IH. rewrite filter_cons. destruct (decide (n ∈ V)).
    + by rewrite decide_False by (intros Hn; by apply Hn).
    + rewrite decide_True by done. by rewrite <- app_assoc.
Qed.

Lemma elem_of_enqueue_neighbors V ns q x :
  x ∈ enqueue_neighbors V ns q ↔ x ∈ q ∨ (x ∈ ns ∧ x ∉ V).
Proof.
  rewrite enqueue_neighbors_filter, elem_of_app, list_elem_of_filter.
  tauto.
Qed.

Lemma length_enqueue_neighbors V ns q :
  (length (enqueue_neighbors V ns q) ≤ length q + length ns)%nat.
Proof.
  rewrite enqueue_neighbors_filter, length_app.
  pose proof (length_filter (λ n, n ∉ V) ns). lia.
Qed.

(** [r] is a ghost copy of the map from which the entries of the visited
    faces have been removed: every iteration either shortens the queue or
    removes an entry that pays for the neighbours it appends. *)
Lemma bfs_loop_enough_fuel fuel fc r V sh q :
  (∀ k l, k ∉ V → fc !! k = Some l → r !! k = Some l) →
  (length q + weight r ≤ fuel)%nat →
  is_Some (bfs_loop fuel fc V sh q).
Proof.
  revert r V sh q. induction fuel as [|fuel IH]; intros r V sh q Hr Hm.
  - destruct q; simpl in *; [by eexists | lia].
  - destruct q as [|c q]; simpl in *; [by eexists|].
    destruct (decide (c ∈ V)) as [Hc|Hc].
    + apply (IH r); [done | lia].
    + unfold neighbors_of. destruct (fc !! c) as [l|] eqn:Hl; simpl.
      * apply (IH (delete c r)).
        -- intros k l' Hk Hkl. rewrite lookup_delete_ne by set_solver.
           apply Hr; [set_solver | done].
        -- pose proof (weight_delete r c l (Hr _ _ Hc Hl)).
           pose proof (length_enqueue_neighbors ({[c]} ∪ V) l q). lia.
      * apply (IH r); [| lia].
        intros k l' Hk Hkl. apply Hr; [set_solver | done].
Qed.

Lemma shells_loop_enough_fuel fuel fc ids V shells :
  (weight fc < fuel)%nat → is_Some (shells_loop fuel fc ids V shells).
Proof.
  intros Hf. revert V shells.
  induction ids as [|i ids IH]; intros V shells; simpl; [by eexists|].
  destruct (decide (i ∈ V)); [apply IH|].
  destruct (bfs_loop_enough_fuel fuel fc fc V [] [i]) as [[V' sh] ->];
    [done | simpl; lia | apply IH].
Qed.

Lemma detect_shells_enough_fuel fuel face_count fc :
  (weight fc < fuel)%nat → is_Some (detect_shells fuel face_count fc).
Proof.
  intros Hf. unfold detect_shells.
  destruct (shells_loop_enough_fuel fuel fc (range face_count) ∅ [] Hf)
    as [[V shells] ->]. by eexists.
Qed.

(** More fuel does not change a result. *)
Lemma bfs_loop_fuel_mono fuel fuel' fc V sh q res :
  (fuel ≤ fuel')%nat →
  bfs_loop fuel fc V sh q = Some res → bfs_loop fuel' fc V sh q = Some res.
Proof.
  revert fuel' V sh q.
  induction fuel as [|fuel IH]; intros fuel' V sh q Hle Hrun.
  - destruct q; [by destruct fuel' | done].
  - destruct fuel' as [|fuel']; [lia|].
    destruct q as [|c q]; [done|]. simpl in *.
    destruct (decide (c ∈ V)); apply IH; (lia || done).
Qed.

Lemma shells_loop_fuel_mono fuel fuel' fc ids V shells res :
  (fuel ≤ fuel')%nat →
  shells_loop fuel fc ids V shells = Some res →
  shells_loop fuel' fc ids V shells = Some res.
Proof.
  intros Hle. revert V shells.
  induction ids as [|i ids IH]; intros V shells; simpl; [done|].
  destruct (decide (i ∈ V)); [apply IH|].
  destruct (bfs_loop fuel fc V [] [i]) as [[V' sh]|] eqn:Hb; [|done].
  rewrite (bfs_loop_fuel_mono _ _ _ _ _ _ _ Hle Hb). apply IH.
Qed.

Lemma detect_shells_fuel_mono fuel fuel' face_count fc shells :
  (fuel ≤ fuel')%nat →
  detect_shells fuel face_count fc = Some shells →
  detect_shells fuel' face_count fc = Some shells.
Proof.
  unfold detect_shells. intros Hle Hrun.
  destruct (shells_loop fuel fc _ _ _) as [res|] eqn:Hl; [|done].
  by rewrite (shells_loop_fuel_mono _ _ _ _ _ _ _ Hle Hl).
Qed.

Lemma get_mesh_shells_ids_total face_count fc :
  is_Some (get_mesh_shells_ids face_count fc).
Proof. apply detect_shells_enough_fuel. unfold bfs_fuel. lia. Qed.
End Termination.

(** *** What the loops compute *)

Section Loops.
Implicit Types (fc : gmap Z (list Z)) (V : gset Z) (q s : list Z).

Lemma edge_lookup fc x y : edge fc x y ↔ ∃ l, fc !! x = Some l ∧ y ∈ l.
Proof.
  unfold edge, neighbors_of. destruct (fc !! x) as [l|]; simpl.
  - split; [eauto | by intros (? & [= ->] & ?)].
  - split; [by intros ?%elem_of_nil | by intros (? & ? & ?)].
Qed.

Lemma bfs_loop_spec fuel fc V sh q V' sh' :
  bfs_loop fuel fc V sh q = Some (V', sh') →
  ∃ new, sh' = sh ++ new ∧ V' = list_to_set new ∪ V ∧ NoDup new ∧
    (∀ x, x ∈ new → x ∉ V) ∧
    (∀ x, x ∈ new → ∃ z, z ∈ q ∧ connected fc z x) ∧
    (∀ x y, x ∈ new → edge fc x y → y ∈ V') ∧
    (∀ x, x ∈ q → x ∈ V') ∧
    (∀ c q', q = c :: q' → c ∉ V → head new = Some c).
Proof.
  revert V sh q. induction fuel as [|fuel IH]; intros V sh q Hrun.
  - destruct q; [|done]. injection Hrun as <- <-.
    exists []. rewrite app_nil_r.
    split_and!; [done | set_solver | apply NoDup_nil_2 | set_solver..].
  - destruct q as [|c q]; simpl in Hrun.
    { injection Hrun as <- <-.
      exists []. rewrite app_nil_r.
      split_and!; [done | set_solver | apply NoDup_nil_2 | set_solver..]. }
    destruct (decide (c ∈ V)) as [Hc|Hc].
    + destruct (IH _ _ _ Hrun) as (new & -> & -> & Hnd & Hfr & Hre & Hcl & Hq & _).
      exists new. split_and!; try done.
      * intros x Hx. destruct (Hre x Hx) as (z & Hs & Hp).
        exists z. split; [by right | done].
      * intros x [->|Hx]%elem_of_cons; [set_solver | by apply Hq].
      * intros c' q' [= -> ->] ?; done.
    + destruct (IH _ _ _ Hrun) as (new & -> & -> & Hnd & Hfr & Hre & Hcl & Hq & _).
      exists (c :: new). split_and!.
      * by rewrite <- app_assoc.
      * set_solver.
      * apply NoDup_cons_2; [|done]. intros Hx. apply Hfr in Hx. set_solver.
      * intros x [->|Hx]%elem_of_cons; [done|]. apply Hfr in Hx. set_solver.
      * intros x [->|Hx]%elem_of_cons.
        { exists c. split; [by left | done]. }
        destruct (Hre x Hx) as (z & Hs & Hp).
        apply elem_of_enqueue_neighbors in Hs as [Hs|[Hs _]].
        -- exists z. split; [by right | done].
        -- exists c. split; [by left|]. by eapply rtc_l.
      * intros x y [->|Hx]%elem_of_cons Hxy; [|by eapply Hcl].
        destruct (decide (y ∈ {[c]} ∪ V)) as [Hy|Hy]; [set_solver|].
        apply Hq, elem_of_enqueue_neighbors. right. done.
      * intros x [->|Hx]%elem_of_cons; [set_solver|].
        apply Hq, elem_of_enqueue_neighbors. by left.
      * intros c' q' [= -> ->] _; done.
Qed.

Lemma bfs_loop_component fuel fc V i V' s :
  i ∉ V → bfs_loop fuel fc V [] [i] = Some (V', s) →
  component fc V i s ∧ V' = list_to_set s ∪ V.
Proof.
  intros Hi Hrun.
  destruct (bfs_loop_spec _ _ _ _ _ _ _ Hrun)
    as (new & -> & -> & Hnd & Hfr & Hre & Hcl & Hq & Hhd).
  simpl. split; [|done]. split; try done.
  - by eapply Hhd.
  - intros x Hx. destruct (Hre x Hx) as (z & Hs & Hp).
    by apply list_elem_of_singleton in Hs as ->.
  - intros x y Hx Hxy. specialize (Hcl x y Hx Hxy). set_solver.
Qed.

Lemma shells_loop_spec fuel fc ids V shells V' shells' :
  shells_loop fuel fc ids V shells = Some (V', shells') →
  ∃ new, shells' = shells ++ new ∧ shells_from fc V ids new.
Proof.
  revert V shells. induction ids as [|i ids IH]; intros V shells Hrun;
    simpl in Hrun.
  - injection Hrun as <- <-. exists []. rewrite app_nil_r.
    split; [done | constructor].
  - destruct (decide (i ∈ V)) as [Hi|Hi].
    + destruct (IH _ _ Hrun) as (new & -> & Hnew).
      exists new. split; [done | by constructor].
    + destruct (bfs_loop fuel fc V [] [i]) as [[V1 s]|] eqn:Hb; [|done].
      destruct (bfs_loop_component _ _ _ _ _ _ Hi Hb) as [Hs ->].
      destruct (IH _ _ Hrun) as (new & -> & Hnew).
      exists (s :: new). split; [by rewrite <- app_assoc | by constructor].
Qed.

Lemma detect_shells_spec fuel face_count fc shells :
  detect_shells fuel face_count fc = Some shells →
  shells_from fc ∅ (range face_count) shells.
Proof.
  unfold detect_shells. intros Hrun.
  destruct (shells_loop fuel fc _ _ _) as [[V' shells']|] eqn:Hl; [|done].
  injection Hrun as <-.
  by destruct (shells_loop_spec _ _ _ _ _ _ _ Hl) as (new & -> & Hnew).
Qed.
End Loops.

(** *** Properties of the shells *)

Section Facts.
Implicit Types (fc : gmap Z (list Z)) (V : gset Z) (s ids : list Z).
Implicit Types (shells : list (list Z)).

Lemma component_start fc V i s : component fc V i s → i ∈ s.
Proof.
  intros [Hhd _ _ _ _]. destruct s as [|x s]; [done|].
  injection Hhd as ->. by left.
Qed.

Lemma closed_connected fc V x y :
  closed fc V → x ∈ V → connected fc x y → y ∈ V.
Proof. intros Hcl Hx Hp. induction Hp; eauto. Qed.

Lemma symmetric_edge fc x y : symmetric fc → edge fc x y → edge fc y x.
Proof.
  intros Hsym (l & Hl & Hy)%edge_lookup.
  apply (map_Forall_lookup_1 _ _ _ _ Hsym) in Hl.
  by apply (proj1 (Forall_forall _ _) Hl).
Qed.

Lemma in_range_edge face_count fc x y :
  in_range face_count fc → edge fc x y → 0 ≤ y < face_count.
Proof.
  intros Hr (l & Hl & Hy)%edge_lookup.
  apply (map_Forall_lookup_1 _ _ _ _ Hr) in Hl.
  by apply (proj1 (Forall_forall _ _) Hl).
Qed.

Lemma non_negative_edge fc x y : non_negative fc → edge fc x y → 0 ≤ y.
Proof.
  intros Hr (l & Hl & Hy)%edge_lookup.
  apply (map_Forall_lookup_1 _ _ _ _ Hr) in Hl.
  by apply (proj1 (Forall_forall _ _) Hl).
Qed.

Lemma isolated_edge fc i :
  isolated fc i → (∀ y, ¬ edge fc i y) ∧ (∀ x, ¬ edge fc x i).
Proof.
  intros [Hout Hin]. split.
  - intros y Hy. unfold edge in Hy. rewrite Hout in Hy.
    by apply elem_of_nil in Hy.
  - intros x (l & Hl & Hy)%edge_lookup.
    by apply (map_Forall_lookup_1 _ _ _ _ Hin) in Hl.
Qed.

Lemma symmetric_connected fc x y :
  symmetric fc → connected fc x y → connected fc y x.
Proof.
  intros Hsym Hp. induction Hp as [|x y z Hxy _ IH]; [done|].
  eapply rtc_r; [done | by apply symmetric_edge].
Qed.

Lemma shells_from_NoDup fc V ids shells :
  shells_from fc V ids shells →
  NoDup (concat shells) ∧ ∀ x, x ∈ concat shells → x ∉ V.
Proof.
  induction 1 as [V|V i ids shells Hi _ IH|V i ids s shells Hi Hs _ [IH1 IH2]];
    simpl.
  - split; [apply NoDup_nil_2 | by intros x ?%elem_of_nil].
  - done.
  - split.
    + apply NoDup_app. split_and!; [by destruct Hs | | done].
      intros x Hx Hx'. apply IH2 in Hx'. set_solver.
    + intros x [Hx|Hx]%elem_of_app.
      * by eapply component_fresh.
      * apply IH2 in Hx. set_solver.
Qed.

Lemma shells_from_cover fc V ids shells :
  shells_from fc V ids shells →
  ∀ i, i ∈ ids → i ∈ V ∨ i ∈ concat shells.
Proof.
  induction 1 as [V|V i ids shells Hi _ IH|V i ids s shells Hi Hs _ IH];
    simpl; intros j Hj.
  - by apply elem_of_nil in Hj.
  - apply elem_of_cons in Hj as [->|Hj]; [by left | by apply IH].
  - rewrite elem_of_app. apply elem_of_cons in Hj as [->|Hj].
    + right. left. by eapply component_start.
    + destruct (IH j Hj) as [Hv|Hv]; [|by right; right].
      apply elem_of_union in Hv as [Hv|Hv]; [|by left].
      right. left. by apply elem_of_list_to_set in Hv.
Qed.

Lemma shells_from_reach fc V ids shells :
  shells_from fc V ids shells →
  ∀ x, x ∈ concat shells → ∃ i, i ∈ ids ∧ connected fc i x.
Proof.
  induction 1 as [V|V i ids shells Hi _ IH|V i ids s shells Hi Hs _ IH];
    simpl; intros x Hx.
  - by apply elem_of_nil in Hx.
  - destruct (IH x Hx) as (j & Hj & Hp). exists j. split; [by right | done].
  - apply elem_of_app in Hx as [Hx|Hx].
    + exists i. split; [by left | by eapply component_reach].
    + destruct (IH x Hx) as (j & Hj & Hp). exists j. split; [by right | done].
Qed.

Lemma shells_from_closed fc V ids shells :
  shells_from fc V ids shells →
  ∀ x y, x ∈ concat shells → edge fc x y → y ∈ V ∨ y ∈ concat shells.
Proof.
  induction 1 as [V|V i ids shells Hi _ IH|V i ids s shells Hi Hs _ IH];
    simpl; intros x y Hx Hxy.
  - by apply elem_of_nil in Hx.
  - by eapply IH.
  - rewrite elem_of_app. apply elem_of_app in Hx as [Hx|Hx].
    + destruct (component_closed _ _ _ _ Hs x y Hx Hxy); tauto.
    + destruct (IH x y Hx Hxy) as [Hy|Hy]; [|tauto].
      apply elem_of_union in Hy as [Hy|Hy]; [|tauto].
      apply elem_of_list_to_set in Hy. tauto.
Qed.

(** With a symmetric map and a closed visited set, every shell is the set
    of the faces connected to any of its faces. *)
Lemma shells_from_connected fc V ids shells :
  symmetric fc → closed fc V → shells_from fc V ids shells →
  ∀ s a b, s ∈ shells → a ∈ s → (b ∈ s ↔ connected fc a b).
Proof.
  intros Hsym Hcl Hsh. revert Hcl.
  induction Hsh as [V|V i ids shells Hi _ IH|V i ids s shells Hi Hs _ IH];
    intros Hcl s' a b Hs' Ha.
  - by apply elem_of_nil in Hs'.
  - by apply IH.
  - assert (closed fc (list_to_set s ∪ V)) as Hcl'.
    { intros x y Hx Hxy. apply elem_of_union in Hx as [Hx|Hx].
      - apply elem_of_list_to_set in Hx.
        destruct (component_closed _ _ _ _ Hs x y Hx Hxy); set_solver.
      - specialize (Hcl x y Hx Hxy). set_solver. }
    apply elem_of_cons in Hs' as [->|Hs']; [|by apply IH].
    split.
    + intros Hb. etrans.
      * apply symmetric_connected; [done|]. by eapply component_reach.
      * by eapply component_reach.
    + intros Hab.
      assert (b ∈ list_to_set s ∪ V) as Hb.
      { eapply closed_connected; [done | | done]. set_solver. }
      apply elem_of_union in Hb as [Hb|Hb]; [by apply elem_of_list_to_set in Hb|].
      exfalso. apply (component_fresh _ _ _ _ Hs a Ha).
      eapply closed_connected; [done.. |]. by apply symmetric_connected.
Qed.

Lemma elem_of_concat shells x :
  x ∈ concat shells ↔ ∃ s, s ∈ shells ∧ x ∈ s.
Proof.
  induction shells as [|t shells IH]; simpl.
  - split; [by intros ?%elem_of_nil | by intros (? & ?%elem_of_nil & _)].
  - rewrite elem_of_app, IH. split.
    + intros [Hx|(s & Hs & Hx)]; [exists t | exists s];
        (split; [|done]); [by left | by right].
    + intros (s & [->|Hs]%elem_of_cons & Hx); [by left | right; eauto].
Qed.

Lemma concat_NoDup_index shells k k' s s' x :
  NoDup (concat shells) →
  shells !! k = Some s → shells !! k' = Some s' → x ∈ s → x ∈ s' → k = k'.
Proof.
  revert k k'. induction shells as [|t shells IH]; intros k k' Hnd Hk Hk' Hx Hx';
    [done|].
  simpl in Hnd. apply NoDup_app in Hnd as (_ & Hdisj & Hnd).
  destruct k as [|k], k' as [|k']; simpl in *.
  - done.
  - injection Hk as ->. exfalso. apply (Hdisj x Hx).
    apply elem_of_concat. exists s'. split; [|done].
    by eapply list_elem_of_lookup_2.
  - injection Hk' as ->. exfalso. apply (Hdisj x Hx').
    apply elem_of_concat. exists s. split; [|done].
    by eapply list_elem_of_lookup_2.
  - f_equal. by eapply IH.
Qed.

Lemma seqZ_cons_inv a n i ids :
  seqZ a n = i :: ids → 0 < n ∧ i = a ∧ ids = seqZ (a + 1) (n - 1).
Proof.
  intros Heq. destruct (decide (0 < n)) as [Hn|Hn].
  - rewrite seqZ_cons in Heq by done. injection Heq as <- <-.
    by rewrite <- Z.add_1_r, <- Z.sub_1_r.
  - rewrite seqZ_nil in Heq by lia. done.
Qed.

(** The outer loop runs over ascending ids: each shell starts at the
    lowest id of the range that no earlier shell contains. *)
Lemma shells_from_starts fc V a n shells :
  shells_from fc V (seqZ a n) shells →
  (∀ j, 0 ≤ j < a → j ∈ V) →
  ∀ k s, shells !! k = Some s →
    ∃ i, head s = Some i ∧ a ≤ i < a + n ∧
      (∀ j, 0 ≤ j < i → j ∈ V ∨ j ∈ concat (take k shells)) ∧
      (∀ x, x ∈ s → (x ∉ V) ∧ (x ∉ concat (take k shells))) ∧
      (∀ x, x ∈ s → connected fc i x).
Proof.
  intros Hsh. remember (seqZ a n) as ids eqn:Hids. revert a n Hids.
  induction Hsh as [V|V i ids shells Hi _ IH|V i ids s shells Hi Hs Hsh IH];
    intros a n Hids Hlow k t Hk.
  - done.
  - symmetry in Hids. apply seqZ_cons_inv in Hids as (Hn & -> & ->).
    destruct (IH (a + 1) (n - 1) eq_refl) with (k := k) (s := t)
      as (i & Hhd & Hi' & Hj & Hx & Hr); [|done|].
    { intros j Hj. destruct (decide (j = a)) as [->|]; [done|].
      apply Hlow. lia. }
    exists i. split_and!; (done || lia).
  - symmetry in Hids. apply seqZ_cons_inv in Hids as (Hn & -> & ->).
    destruct k as [|k]; simpl in Hk.
    + injection Hk as <-. exists a. split_and!.
      * by destruct Hs.
      * lia.
      * lia.
      * intros j Hj. left. by apply Hlow.
      * intros x Hx. split; [by eapply component_fresh|]. simpl.
        by intros ?%elem_of_nil.
      * by destruct Hs.
    + destruct (IH (a + 1) (n - 1) eq_refl) with (k := k) (s := t)
        as (i & Hhd & Hi' & Hj & Hx & Hr); [|done|].
      { intros j Hj. destruct (decide (j = a)) as [->|].
        - apply component_start in Hs. set_solver.
        - apply elem_of_union_r, Hlow. lia. }
      exists i. split_and!; [done | lia | lia | | | done].
      * intros j Hj'. simpl. rewrite elem_of_app.
        destruct (Hj j Hj') as [Hv|Hv]; [|tauto].
        apply elem_of_union in Hv as [Hv|Hv]; [|tauto].
        apply elem_of_list_to_set in Hv. tauto.
      * intros x Hx'. destruct (Hx x Hx') as [Hv Hc]. simpl.
        rewrite elem_of_app. set_solver.
Qed.

Lemma shell_min_head i s :
  (∀ x, x ∈ s → i ≤ x) → shell_min (i :: s) = Some i.
Proof.
  intros Hle. simpl. f_equal.
  induction s as [|y s IH]; simpl; [done|].
  rewrite IH by (intros x Hx; apply Hle; by right).
  apply Z.min_r, Hle. by left.
Qed.

(** A face without edges, into it or out of it, is alone in its shell. *)
Lemma shells_from_isolated fc V ids shells i :
  shells_from fc V ids shells →
  (∀ y, ¬ edge fc i y) → (∀ x, ¬ edge fc x i) →
  i ∈ ids → i ∉ V → [i] ∈ shells.
Proof.
  intros Hsh Hout Hin.
  induction Hsh as [V|V j ids shells Hj _ IH|V j ids s shells Hj Hs _ IH];
    intros Hi Hv.
  - by apply elem_of_nil in Hi.
  - apply IH; [|done]. apply elem_of_cons in Hi as [->|Hi]; done.
  - destruct (decide (i = j)) as [->|Hne].
    + assert (∀ x, x ∈ s → x = j) as Hall.
      { intros x Hx. apply (component_reach _ _ _ _ Hs) in Hx.
        destruct Hx as [|j y z Hjy _]; [done | by apply Hout in Hjy]. }
      destruct Hs as [Hhd Hnd _ _ _]. destruct s as [|x [|y s]]; [done|..].
      * injection Hhd as ->. by left.
      * exfalso. injection Hhd as ->. apply NoDup_cons in Hnd as [Hnd _].
        apply Hnd. rewrite (Hall y) by (right; by left). by left.
    + right. apply IH.
      * apply elem_of_cons in Hi as [->|Hi]; done.
      * intros Hv'. apply elem_of_union in Hv' as [Hv'|Hv']; [|done].
        apply elem_of_list_to_set in Hv'.
        apply (component_reach _ _ _ _ Hs) in Hv'.
        apply rtc_inv_r in Hv' as [->|(y & _ & Hyi)]; [done|].
        by apply Hin in Hyi.
Qed.
End Facts.

(** *** The runs of the transition system *)

Section Runs.
Implicit Types (fc : gmap Z (list Z)) (V : gset Z) (c : config).








End Runs.

(** *** The claims about shell detection *)

(** C1: when every id listed in the adjacency map lies in
    [0, face_count), the shells returned by the search partition
    {0, ..., face_count - 1}: the concatenation of the shells has no
    duplicate, its members are exactly the ids of the range, and every id of
    the range lies in the shell of exactly one index. *)
Theorem shells_partition face_count fc :
  in_range face_count fc →
  ∃ shells, get_mesh_shells_ids face_count fc = Some shells ∧
    NoDup (concat shells) ∧
    (∀ x, x ∈ concat shells ↔ 0 ≤ x < face_count) ∧
    (∀ x, 0 ≤ x < face_count →
       ∃ k s, shells !! k = Some s ∧ x ∈ s ∧
         ∀ k' s', shells !! k' = Some s' → x ∈ s' → k' = k).
Proof.
  intros Hr. destruct (get_mesh_shells_ids_total face_count fc) as [shells Hrun].
  exists shells. split; [done|].
  pose proof (detect_shells_spec _ _ _ _ Hrun) as Hsh.
  destruct (shells_from_NoDup _ _ _ _ Hsh) as [Hnd _].
  assert (∀ x, x ∈ concat shells ↔ 0 ≤ x < face_count) as Hmem.
  { intros x. split.
    - intros Hx. destruct (shells_from_reach _ _ _ _ Hsh x Hx) as (i & Hi & Hp).
      apply elem_of_seqZ in Hi.
      apply rtc_inv_r in Hp as [<-|(y & _ & Hyx)]; [lia|].
      by eapply in_range_edge.
    - intros Hx. destruct (shells_from_cover _ _ _ _ Hsh x) as [Hv|Hv];
        [apply elem_of_seqZ; lia | set_solver | done]. }
  split_and!; [done..|].
  intros x Hx. apply Hmem, elem_of_concat in Hx as (s & Hs & Hx).
  apply list_elem_of_lookup_1 in Hs as [k Hk].
  exists k, s. split_and!; [done..|].
  intros k' s' Hk' Hx'. by eapply concat_NoDup_index.
Qed.

Lemma shells_partition_witness :
  let fc : gmap Z (list Z) := {[ 0 := [1]; 1 := [0]; 2 := [] ]} in
  in_range 3 fc ∧
  ∃ shells, get_mesh_shells_ids 3 fc = Some shells ∧
    NoDup (concat shells) ∧
    (∀ x, x ∈ concat shells ↔ 0 ≤ x < 3) ∧
    (∀ x, 0 ≤ x < 3 →
       ∃ k s, shells !! k = Some s ∧ x ∈ s ∧
         ∀ k' s', shells !! k' = Some s' → x ∈ s' → k' = k).
Proof.
  intros fc. assert (in_range 3 fc) as Hr by compute_done.
  split; [exact Hr | exact (shells_partition 3 fc Hr)].
Defined.

(** C2: for a symmetric adjacency map and two faces [a] and [b] of the
    range, some returned shell contains both [a] and [b] exactly when a
    path of adjacency edges leads from [a] to [b]. *)
Theorem same_shell_iff_connected face_count fc a b :
  symmetric fc → 0 ≤ a < face_count → 0 ≤ b < face_count →
  ∃ shells, get_mesh_shells_ids face_count fc = Some shells ∧
    ((∃ s, s ∈ shells ∧ a ∈ s ∧ b ∈ s) ↔ connected fc a b).
Proof.
  intros Hsym Ha Hb.
  destruct (get_mesh_shells_ids_total face_count fc) as [shells Hrun].
  exists shells. split; [done|].
  pose proof (detect_shells_spec _ _ _ _ Hrun) as Hsh.
  assert (closed fc ∅) as Hcl by (intros x y Hx; set_solver).
  split.
  - intros (s & Hs & Has & Hbs).
    by apply (shells_from_connected _ _ _ _ Hsym Hcl Hsh s a b Hs Has).
  - intros Hab. destruct (shells_from_cover _ _ _ _ Hsh a) as [Hv|Hv];
      [apply elem_of_seqZ; lia | set_solver |].
    apply elem_of_concat in Hv as (s & Hs & Has).
    exists s. split_and!; [done..|].
    by apply (shells_from_connected _ _ _ _ Hsym Hcl Hsh s a b Hs Has).
Qed.

Lemma same_shell_iff_connected_witness :
  let fc : gmap Z (list Z) := {[ 0 := [1]; 1 := [0; 2]; 2 := [1]; 3 := [] ]} in
  symmetric fc ∧
  ∃ shells, get_mesh_shells_ids 4 fc = Some shells ∧
    ((∃ s, s ∈ shells ∧ 0 ∈ s ∧ 2 ∈ s) ↔ connected fc 0 2).
Proof.
  intros fc. assert (symmetric fc) as Hsym by compute_done.
  split; [exact Hsym|].
  apply (same_shell_iff_connected 4 fc 0 2 Hsym); lia.
Defined.

(** C3 (as amended): when no id listed in the adjacency map is negative,
    every shell starts at the lowest id of the range that no earlier shell
    contains, this start is the smallest id of the shell, and the smallest
    ids of consecutive shells ascend strictly. *)
Theorem shells_ordered_by_min face_count fc :
  non_negative fc →
  ∃ shells, get_mesh_shells_ids face_count fc = Some shells ∧
    starts_lowest face_count shells ∧
    (∀ s, s ∈ shells → is_Some (head s) ∧ shell_min s = head s) ∧
    min_ascending shells.
Proof.
  intros Hnn. destruct (get_mesh_shells_ids_total face_count fc) as [shells Hrun].
  exists shells. split; [done|].
  pose proof (detect_shells_spec _ _ _ _ Hrun) as Hsh.
  pose proof (shells_from_starts _ _ _ _ _ Hsh) as Hst.
  assert (∀ k s, shells !! k = Some s →
    ∃ i, head s = Some i ∧ 0 ≤ i < face_count ∧ shell_min s = Some i ∧
      (i ∉ concat (take k shells)) ∧
      (∀ j, 0 ≤ j < i → j ∈ concat (take k shells))) as Hall.
  { intros k s Hk.
    destruct (Hst ltac:(lia) k s Hk) as (i & Hhd & Hi & Hlow & Hfr & Hre).
    assert (∀ j, 0 ≤ j < i → j ∈ concat (take k shells)) as Hlow'.
    { intros j Hj. destruct (Hlow j Hj); [set_solver | done]. }
    exists i. split_and!; [done | lia | lia | | | done].
    - destruct s as [|x s]; [done|]. injection Hhd as ->.
      apply shell_min_head. intros x Hx.
      assert (x ∈ i :: s) as Hx' by (by right).
      destruct (decide (i ≤ x)) as [|Hlt]; [done|]. exfalso.
      apply (Hfr x Hx'), Hlow'. split; [|lia].
      specialize (Hre x Hx'). apply rtc_inv_r in Hre as [<-|(y & _ & Hyx)]; [lia|].
      by eapply non_negative_edge.
    - apply Hfr. destruct s as [|x s]; [done|]. injection Hhd as ->. by left. }
  split_and!.
  - intros k s Hk. destruct (Hall k s Hk) as (i & ? & ? & ? & ? & ?). eauto.
  - intros s [k Hk]%list_elem_of_lookup_1.
    destruct (Hall k s Hk) as (i & -> & ? & -> & ? & ?). eauto.
  - intros k s s' m m' Hk Hk' Hm Hm'.
    destruct (Hall k s Hk) as (i & Hhd & Hi & Hmi & _ & _).
    destruct (Hall (S k) s' Hk') as (i' & Hhd' & Hi' & Hmi' & Hfr' & Hlow').
    rewrite Hmi in Hm. rewrite Hmi' in Hm'.
    injection Hm as <-. injection Hm' as <-.
    destruct (decide (i < i')) as [|Hge]; [done|]. exfalso.
    rewrite (take_S_r _ _ _ Hk), concat_app in Hfr'. simpl in Hfr'.
    rewrite app_nil_r in Hfr'.
    assert (i ∈ s) as His.
    { destruct s as [|x s]; [done|]. injection Hhd as ->. by left. }
    destruct (decide (i' = i)) as [->|Hne].
    + apply Hfr', elem_of_app. by right.
    + destruct (Hall k s Hk) as (i0 & Hhd0 & _ & _ & _ & Hlow).
      rewrite Hhd in Hhd0. injection Hhd0 as <-.
      apply Hfr', elem_of_app. left. apply Hlow. lia.
Qed.

Lemma shells_ordered_by_min_witness :
  let fc : gmap Z (list Z) := {[ 0 := [2]; 1 := [7]; 2 := [0] ]} in
  non_negative fc ∧
  ∃ shells, get_mesh_shells_ids 3 fc = Some shells ∧
    starts_lowest 3 shells ∧
    (∀ s, s ∈ shells → is_Some (head s) ∧ shell_min s = head s) ∧
    min_ascending shells.
Proof.
  intros fc. assert (non_negative fc) as Hnn by compute_done.
  split; [exact Hnn | exact (shells_ordered_by_min 3 fc Hnn)].
Defined.

(** C3 as stated fails when a negative id is listed: with two faces and
    the map {1: [-5]}, the second shell [1, -5] has a smaller minimum than
    the first shell [0]. *)
Lemma shells_ordered_by_min_counterexample :
  ∃ shells, get_mesh_shells_ids 2 {[ 1 := [-5] ]} = Some shells ∧
    ¬ min_ascending shells.
Proof.
  exists [[0]; [1; -5]]. split; [by vm_compute|].
  intros Hasc.
  specialize (Hasc 0%nat [0] [1; -5] 0 (-5) eq_refl eq_refl eq_refl eq_refl).
  lia.
Qed.

(** C4 (as amended): the search has no validation and does not fail.  When
    the neighbours of a face of the range list an id outside
    [0, face_count), the search returns its shells and that id is a member
    of one of them. *)
Theorem out_of_range_included face_count fc k n :
  0 ≤ k < face_count → edge fc k n → ¬ (0 ≤ n < face_count) →
  ∃ shells, get_mesh_shells_ids face_count fc = Some shells ∧
    n ∈ concat shells.
Proof.
  intros Hk Hkn _.
  destruct (get_mesh_shells_ids_total face_count fc) as [shells Hrun].
  exists shells. split; [done|].
  pose proof (detect_shells_spec _ _ _ _ Hrun) as Hsh.
  destruct (shells_from_cover _ _ _ _ Hsh k) as [Hv|Hv];
    [apply elem_of_seqZ; lia | set_solver |].
  destruct (shells_from_closed _ _ _ _ Hsh k n Hv Hkn); [set_solver | done].
Qed.

Lemma out_of_range_included_witness :
  let fc : gmap Z (list Z) := {[ 0 := [1]; 1 := [0; 9] ]} in
  edge fc 1 9 ∧
  ∃ shells, get_mesh_shells_ids 2 fc = Some shells ∧ 9 ∈ concat shells.
Proof.
  intros fc. assert (edge fc 1 9) as He by (unfold edge; compute_done).
  split; [exact He|].
  apply (out_of_range_included 2 fc 1 9); [lia | exact He | lia].
Defined.

(** C4 as stated fails: with one face and the map {0: [5]}, whose entry
    lists an id outside [0, 1), the search returns the shell [0, 5]. *)
Lemma out_of_range_counterexample :
  ¬ in_range 1 {[ 0 := [5] ]} ∧
  get_mesh_shells_ids 1 {[ 0 := [5] ]} = Some [[0; 5]].
Proof. split; [compute_done | by vm_compute]. Qed.

(** C5: a face of the range that has no entry or an empty one, and that no
    entry lists, is alone in its shell: [[i]] is one of the returned shells
    and it is the only shell that contains [i]. *)
Theorem isolated_face_singleton face_count fc i :
  0 ≤ i < face_count → isolated fc i →
  ∃ shells, get_mesh_shells_ids face_count fc = Some shells ∧
    [i] ∈ shells ∧ ∀ s, s ∈ shells → i ∈ s → s = [i].
Proof.
  intros Hi [Hout Hin]%isolated_edge.
  destruct (get_mesh_shells_ids_total face_count fc) as [shells Hrun].
  exists shells. split; [done|].
  pose proof (detect_shells_spec _ _ _ _ Hrun) as Hsh.
  assert ([i] ∈ shells) as Hone.
  { eapply shells_from_isolated; [done.. | apply elem_of_seqZ; lia | set_solver]. }
  split; [done|]. intros s Hs His.
  destruct (shells_from_NoDup _ _ _ _ Hsh) as [Hnd _].
  apply list_elem_of_lookup_1 in Hone as [k Hk].
  apply list_elem_of_lookup_1 in Hs as [k' Hk'].
  assert (k = k') as <-.
  { eapply concat_NoDup_index; [done.. | by left | done]. }
  congruence.
Qed.

Lemma isolated_face_singleton_witness :
  let fc : gmap Z (list Z) := {[ 0 := [1]; 1 := [0]; 2 := [] ]} in
  isolated fc 2 ∧ isolated fc 3 ∧
  (∃ shells, get_mesh_shells_ids 4 fc = Some shells ∧
    [2] ∈ shells ∧ ∀ s, s ∈ shells → 2 ∈ s → s = [2]) ∧
  (∃ shells, get_mesh_shells_ids 4 fc = Some shells ∧
    [3] ∈ shells ∧ ∀ s, s ∈ shells → 3 ∈ s → s = [3]).
Proof.
  intros fc.
  assert (isolated fc 2) as H2 by compute_done.
  assert (isolated fc 3) as H3 by compute_done.
  split_and!; [exact H2 | exact H3 | |].
  - apply (isolated_face_singleton 4 fc 2); [lia | exact H2].
  - apply (isolated_face_singleton 4 fc 3); [lia | exact H3].
Defined.

(** C6: with no face the search returns no shell, whatever the map. *)
Theorem no_faces_no_shells fc : get_mesh_shells_ids 0 fc = Some [].
Proof. reflexivity. Qed.



(** The whole function on a mesh of two pieces. *)
Example get_mesh_shells_cube :
  get_mesh_shells "cube" [(0, [1]); (1, [0]); (2, [])]
  = Some [["cube.f[0]"; "cube.f[1]"]; ["cube.f[2]"]].
Proof. by vm_compute. Qed.

(** C8: the scenario with six faces. *)
Theorem six_faces_scenario :
  get_mesh_shells_ids 6
    (list_to_map [(0, [1]); (1, [0; 2]); (2, [1]); (3, [4]); (4, [3]); (5, [])])
  = Some [[0; 1; 2]; [3; 4]; [5]].
Proof. by vm_compute. Qed.

(** *** Further properties of shell detection *)

Section MoreFacts.
Implicit Types (fc : gmap Z (list Z)) (V : gset Z) (s ids : list Z).
Implicit Types (shells : list (list Z)).

Lemma shells_from_length fc V ids shells :
  shells_from fc V ids shells → (length shells ≤ length ids)%nat.
Proof. induction 1; simpl; lia. Qed.

Lemma shells_from_heads fc V ids shells :
  shells_from fc V ids shells →
  ∀ s, s ∈ shells → ∃ i, head s = Some i ∧ i ∈ ids.
Proof.
  induction 1 as [V|V i ids shells Hi _ IH|V i ids s shells Hi Hs _ IH];
    intros t Ht.
  - by apply elem_of_nil in Ht.
  - destruct (IH t Ht) as (j & Hj & Hin). exists j. split; [done | by right].
  - apply elem_of_cons in Ht as [->|Ht].
    + exists i. split; [by destruct Hs | by left].
    + destruct (IH t Ht) as (j & Hj & Hin). exists j. split; [done | by right].
Qed.

Lemma shells_from_first_reach fc V ids shells :
  shells_from fc V ids shells →
  ∀ s i x, s ∈ shells → head s = Some i → x ∈ s → connected fc i x.
Proof.
  induction 1 as [V|V i ids shells Hi _ IH|V i ids s shells Hi Hs _ IH];
    intros t j x Ht Hj Hx.
  - by apply elem_of_nil in Ht.
  - by eapply IH.
  - apply elem_of_cons in Ht as [->|Ht]; [|by eapply IH].
    destruct Hs as [Hhd _ _ Hre _]. rewrite Hhd in Hj. injection Hj as <-.
    by apply Hre.
Qed.

(** An edge that leaves a shell leads into a shell found before it. *)
Lemma shells_from_backward fc V ids shells :
  shells_from fc V ids shells →
  ∀ k s x y, shells !! k = Some s → x ∈ s → edge fc x y →
    y ∈ V ∨ ∃ k' s', (k' ≤ k)%nat ∧ shells !! k' = Some s' ∧ y ∈ s'.
Proof.
  induction 1 as [V|V i ids shells Hi _ IH|V i ids s shells Hi Hs _ IH];
    intros k t x y Hk Hx Hxy.
  - done.
  - by eapply IH.
  - destruct k as [|k]; simpl in Hk.
    + injection Hk as <-.
      destruct (component_closed _ _ _ _ Hs x y Hx Hxy) as [Hy|Hy]; [|by left].
      right. exists 0%nat, s. split_and!; [lia | done | done].
    + destruct (IH k t x y Hk Hx Hxy) as [Hy|(k' & s' & Hle & Hk' & Hy)].
      * apply elem_of_union in Hy as [Hy|Hy]; [|by left].
        apply elem_of_list_to_set in Hy.
        right. exists 0%nat, s. split_and!; [lia | done | done].
      * right. exists (S k'), s'. split_and!; [lia | done | done].
Qed.

Lemma shells_from_all_visited fc V ids shells :
  shells_from fc V ids shells → (∀ i, i ∈ ids → i ∈ V) → shells = [].
Proof.
  induction 1 as [V|V i ids shells Hi _ IH|V i ids s shells Hi Hs _ IH];
    intros Hall.
  - done.
  - apply IH. intros j Hj. apply Hall. by right.
  - exfalso. apply Hi, Hall. by left.
Qed.

(** The inner loop keeps the order of discovery: a face is appended to the
    shell after the face whose neighbours put it on the queue. *)
Lemma bfs_loop_parents fuel fc V sh q V' sh' :
  bfs_loop fuel fc V sh q = Some (V', sh') →
  (∀ z, z ∈ q → ∃ p, p ∈ sh ∧ edge fc p z) →
  tree_ordered fc sh → tree_ordered fc sh'.
Proof.
  revert V sh q. induction fuel as [|fuel IH]; intros V sh q Hrun Hq Hsh.
  - destruct q; [|done]. by injection Hrun as <- <-.
  - destruct q as [|c q]; simpl in Hrun; [by injection Hrun as <- <-|].
    destruct (decide (c ∈ V)) as [Hc|Hc].
    + apply (IH _ _ _ Hrun); [|done]. intros z Hz. apply Hq. by right.
    + apply (IH _ _ _ Hrun).
      * intros z [Hz|[Hz _]]%elem_of_enqueue_neighbors.
        -- destruct (Hq z) as (p & Hp & Hpz); [by right|].
           exists p. split; [|done]. apply elem_of_app. by left.
        -- exists c. split; [|done]. apply elem_of_app. right. by left.
      * intros k x Hk Hpos.
        destruct (decide (k < length sh)%nat) as [Hlt|Hge].
        -- rewrite lookup_app_l in Hk by done.
           destruct (Hsh k x Hk Hpos) as (k' & p & Hlt' & Hk' & Hpx).
           exists k', p. split_and!; [done | | done].
           rewrite lookup_app_l; [done|]. by eapply lookup_lt_Some.
        -- assert (k = length sh) as ->.
           { apply lookup_lt_Some in Hk. rewrite length_app in Hk.
             simpl in Hk. lia. }
           rewrite list_lookup_middle in Hk by done. injection Hk as <-.
           destruct (Hq c) as (p & Hp & Hpc); [by left|].
           apply list_elem_of_lookup_1 in Hp as [k' Hk'].
           exists k', p. split_and!; [by eapply lookup_lt_Some | | done].
           rewrite lookup_app_l; [done|]. by eapply lookup_lt_Some.
Qed.

Lemma bfs_loop_start_parents fuel fc V i V' s :
  bfs_loop fuel fc V [] [i] = Some (V', s) → i ∉ V → tree_ordered fc s.
Proof.
  intros Hrun Hi. destruct fuel as [|fuel]; [done|]. simpl in Hrun.
  rewrite decide_False in Hrun by done.
  apply (bfs_loop_parents _ _ _ _ _ _ _ Hrun).
  - intros z [Hz|[Hz _]]%elem_of_enqueue_neighbors; [by apply elem_of_nil in Hz|].
    exists i. split; [by left | done].
  - intros k x Hk Hpos. destruct k; [lia | done].
Qed.

Lemma shells_loop_parents fuel fc ids V shells V' shells' :
  shells_loop fuel fc ids V shells = Some (V', shells') →
  Forall (tree_ordered fc) shells → Forall (tree_ordered fc) shells'.
Proof.
  revert V shells. induction ids as [|i ids IH]; intros V shells Hrun Hall;
    simpl in Hrun.
  - by injection Hrun as <- <-.
  - destruct (decide (i ∈ V)) as [Hi|Hi]; [by eapply IH|].
    destruct (bfs_loop fuel fc V [] [i]) as [[V1 s]|] eqn:Hb; [|done].
    apply (IH _ _ Hrun). apply Forall_app. split; [done|].
    apply Forall_singleton. by eapply bfs_loop_start_parents.
Qed.

(** The loops look a face up only through [neighbors_of]. *)
Lemma bfs_loop_ext fuel fc1 fc2 V sh q :
  (∀ x, neighbors_of fc1 x = neighbors_of fc2 x) →
  bfs_loop fuel fc1 V sh q = bfs_loop fuel fc2 V sh q.
Proof.
  intros Hext. revert V sh q.
  induction fuel as [|fuel IH]; intros V sh q; [done|].
  destruct q as [|c q]; [done|]. simpl.
  destruct (decide (c ∈ V)); [apply IH|]. rewrite Hext. apply IH.
Qed.

Lemma shells_loop_ext fuel fc1 fc2 ids V shells :
  (∀ x, neighbors_of fc1 x = neighbors_of fc2 x) →
  shells_loop fuel fc1 ids V shells = shells_loop fuel fc2 ids V shells.
Proof.
  intros Hext. revert V shells.
  induction ids as [|i ids IH]; intros V shells; [done|]. simpl.
  destruct (decide (i ∈ V)); [apply IH|].
  rewrite (bfs_loop_ext _ fc1 fc2) by done.
  destruct (bfs_loop fuel fc2 V [] [i]) as [[V1 s]|]; [apply IH | done].
Qed.

Lemma get_mesh_shells_ids_ext face_count fc1 fc2 :
  (∀ x, neighbors_of fc1 x = neighbors_of fc2 x) →
  get_mesh_shells_ids face_count fc1 = get_mesh_shells_ids face_count fc2.
Proof.
  intros Hext.
  destruct (get_mesh_shells_ids_total face_count fc1) as [out1 H1].
  destruct (get_mesh_shells_ids_total face_count fc2) as [out2 H2].
  rewrite H1, H2. unfold get_mesh_shells_ids in *.
  set (fuel := Nat.max (bfs_fuel fc1) (bfs_fuel fc2)).
  apply (detect_shells_fuel_mono _ fuel) in H1; [|lia].
  apply (detect_shells_fuel_mono _ fuel) in H2; [|lia].
  unfold detect_shells in *.
  rewrite (shells_loop_ext _ fc1 fc2) in H1 by done. congruence.
Qed.
End MoreFacts.

(** X1: whatever the adjacency map lists, also ids outside the range, no id
    occurs twice in the returned shells and every id of the range occurs in
    one of them. *)
Theorem every_face_once face_count (fc : gmap Z (list Z)) :
  ∃ shells, get_mesh_shells_ids face_count fc = Some shells ∧
    NoDup (concat shells) ∧
    ∀ x, 0 ≤ x < face_count → x ∈ concat shells.
Proof.
  destruct (get_mesh_shells_ids_total face_count fc) as [shells Hrun].
  exists shells. split; [done|].
  pose proof (detect_shells_spec _ _ _ _ Hrun) as Hsh.
  split; [by destruct (shells_from_NoDup _ _ _ _ Hsh)|].
  intros x Hx. destruct (shells_from_cover _ _ _ _ Hsh x) as [Hv|Hv];
    [apply elem_of_seqZ; lia | set_solver | done].
Qed.

(** X2: no returned shell is empty: each one starts with an id of the
    range, so that there are at most [face_count] shells. *)
Theorem shells_nonempty_bounded face_count (fc : gmap Z (list Z)) :
  ∃ shells, get_mesh_shells_ids face_count fc = Some shells ∧
    (length shells ≤ Z.to_nat face_count)%nat ∧
    ∀ s, s ∈ shells → ∃ i, head s = Some i ∧ 0 ≤ i < face_count.
Proof.
  destruct (get_mesh_shells_ids_total face_count fc) as [shells Hrun].
  exists shells. split; [done|].
  pose proof (detect_shells_spec _ _ _ _ Hrun) as Hsh. split.
  - apply shells_from_length in Hsh. unfold range in Hsh.
    by rewrite length_seqZ in Hsh.
  - intros s Hs. destruct (shells_from_heads _ _ _ _ Hsh s Hs) as (i & Hi & Hin).
    exists i. split; [done|]. apply elem_of_seqZ in Hin. lia.
Qed.

(** X3: every face of a returned shell is reached from the first face of
    the shell by a path of adjacency edges, whether the map is symmetric or
    not. *)
Theorem shell_reachable_from_first face_count (fc : gmap Z (list Z)) :
  ∃ shells, get_mesh_shells_ids face_count fc = Some shells ∧
    ∀ s i x, s ∈ shells → head s = Some i → x ∈ s → connected fc i x.
Proof.
  destruct (get_mesh_shells_ids_total face_count fc) as [shells Hrun].
  exists shells. split; [done|].
  by apply shells_from_first_reach with (V := ∅) (ids := range face_count),
    detect_shells_spec with (fuel := bfs_fuel fc).
Qed.

(** X4: inside a returned shell the faces stand in the order of discovery:
    every face after the first one is listed as a neighbour by a face that
    stands before it in the same shell. *)
Theorem shells_tree_ordered face_count (fc : gmap Z (list Z)) :
  ∃ shells, get_mesh_shells_ids face_count fc = Some shells ∧
    Forall (tree_ordered fc) shells.
Proof.
  destruct (get_mesh_shells_ids_total face_count fc) as [shells Hrun].
  exists shells. split; [done|].
  unfold get_mesh_shells_ids, detect_shells in Hrun.
  destruct (shells_loop _ fc _ _ _) as [[V' shells']|] eqn:Hl; [|done].
  injection Hrun as <-. by eapply shells_loop_parents.
Qed.

(** X5: an adjacency edge never leads forward: when a face of the shell at
    index [k] lists [y], then [y] is in the shell at some index [k' ≤ k]. *)
Theorem edges_lead_backward face_count (fc : gmap Z (list Z)) :
  ∃ shells, get_mesh_shells_ids face_count fc = Some shells ∧
    ∀ k s x y, shells !! k = Some s → x ∈ s → edge fc x y →
      ∃ k' s', (k' ≤ k)%nat ∧ shells !! k' = Some s' ∧ y ∈ s'.
Proof.
  destruct (get_mesh_shells_ids_total face_count fc) as [shells Hrun].
  exists shells. split; [done|].
  pose proof (detect_shells_spec _ _ _ _ Hrun) as Hsh.
  intros k s x y Hk Hx Hxy.
  destruct (shells_from_backward _ _ _ _ Hsh k s x y Hk Hx Hxy) as [Hy|Hy];
    [set_solver | done].
Qed.

(** X6: a face without an entry is treated as a face with an empty entry:
    adding the entry [k: []] for a missing key [k] does not change the
    result. *)
Theorem empty_entry_is_missing_entry face_count (fc : gmap Z (list Z)) k :
  fc !! k = None →
  get_mesh_shells_ids face_count (<[k := []]> fc)
  = get_mesh_shells_ids face_count fc.
Proof.
  intros Hk. apply get_mesh_shells_ids_ext. intros x. unfold neighbors_of.
  destruct (decide (k = x)) as [->|Hne].
  - by rewrite lookup_insert_eq, Hk.
  - by rewrite lookup_insert_ne.
Qed.

Lemma empty_entry_is_missing_entry_witness :
  let fc : gmap Z (list Z) := {[ 0 := [1]; 1 := [0] ]} in
  get_mesh_shells_ids 3 (<[2 := []]> fc) = get_mesh_shells_ids 3 fc.
Proof.
  intros fc. apply (empty_entry_is_missing_entry 3 fc 2). reflexivity.
Defined.

(** X7: when there is a face and every face of the range is reached from
    face 0 by a path of adjacency edges, the result is one shell, and it
    contains every face of the range. *)
Theorem reachable_mesh_single_shell face_count (fc : gmap Z (list Z)) :
  0 < face_count →
  (∀ x, 0 ≤ x < face_count → connected fc 0 x) →
  ∃ s, get_mesh_shells_ids face_count fc = Some [s] ∧
    ∀ x, 0 ≤ x < face_count → x ∈ s.
Proof.
  intros Hpos Hconn.
  destruct (get_mesh_shells_ids_total face_count fc) as [shells Hrun].
  pose proof (detect_shells_spec _ _ _ _ Hrun) as Hsh.
  unfold range in Hsh. rewrite seqZ_cons in Hsh by done.
  inversion Hsh as [|? ? ? ? Hin|? ? ? s rest Hi Hs Hrest]; subst;
    [set_solver|].
  assert (∀ x, 0 ≤ x < face_count → x ∈ s) as Hall.
  { intros x Hx. specialize (Hconn x Hx).
    assert (closed fc (list_to_set s)) as Hcl.
    { intros a b Ha Hab. apply elem_of_list_to_set in Ha.
      apply elem_of_list_to_set.
      destruct (component_closed _ _ _ _ Hs a b Ha Hab); [done | set_solver]. }
    assert (x ∈ (list_to_set s : gset Z)) as Hin.
    { eapply (closed_connected fc _ 0 x Hcl); [|done].
      apply elem_of_list_to_set. by eapply component_start. }
    by apply elem_of_list_to_set in Hin. }
  assert (rest = []) as ->.
  { apply (shells_from_all_visited _ _ _ _ Hrest).
    intros i Hi'%elem_of_seqZ. apply elem_of_union_l, elem_of_list_to_set, Hall.
    lia. }
  exists s. split; [done | exact Hall].
Qed.

Lemma reachable_mesh_single_shell_witness :
  let fc : gmap Z (list Z) := {[ 0 := [1]; 1 := [2] ]} in
  ∃ s, get_mesh_shells_ids 3 fc = Some [s] ∧ ∀ x, 0 ≤ x < 3 → x ∈ s.
Proof.
  intros fc. apply (reachable_mesh_single_shell 3 fc); [lia|].
  intros x Hx.
  assert (edge fc 0 1) as H01 by (unfold edge; compute_done).
  assert (edge fc 1 2) as H12 by (unfold edge; compute_done).
  assert (x = 0 ∨ x = 1 ∨ x = 2) as [-> | [-> | ->]] by lia.
  - apply rtc_refl.
  - apply rtc_once, H01.
  - eapply rtc_l; [exact H01 | apply rtc_once, H12].
Defined.

(** *** The whole of [get_mesh_shells] *)

Lemma bracket_cancel (s1 s2 : string) : s1 +:+ "]" = s2 +:+ "]" → s1 = s2.
Proof.
  revert s2. induction s1 as [|a s1 IH]; intros [|b s2] Heq; simpl in Heq.
  - done.
  - injection Heq as _ Heq. by destruct s2.
  - injection Heq as _ Heq. by destruct s1.
  - injection Heq as -> Heq. f_equal. by apply IH.
Qed.

#[global] Instance face_name_inj (obj : string) : Inj (=) (=) (face_name obj).
Proof.
  intros a b Heq. unfold face_name in Heq.
  apply (inj (String.app obj)), (inj (String.app ".f[")) in Heq.
  by apply bracket_cancel, (inj pretty) in Heq.
Qed.

Section WholeFunction.
Implicit Types (polys : list (Z * list Z)) (obj : string).

Lemma collect_faces_snoc polys p :
  collect_faces (polys ++ [p])
  = ((collect_faces polys).1 + 1, <[p.1 := p.2]> (collect_faces polys).2).
Proof. unfold collect_faces. by rewrite foldl_snoc. Qed.

Lemma collect_faces_count polys :
  (collect_faces polys).1 = Z.of_nat (length polys).
Proof.
  induction polys as [|p polys IH] using rev_ind; [done|].
  rewrite collect_faces_snoc, length_app. simpl. lia.
Qed.

Lemma collect_faces_value polys i l :
  (collect_faces polys).2 !! i = Some l → (i, l) ∈ polys.
Proof.
  induction polys as [|p polys IH] using rev_ind; [done|].
  rewrite collect_faces_snoc. simpl. rewrite elem_of_app.
  destruct (decide (p.1 = i)) as [<-|Hne].
  - rewrite lookup_insert_eq. intros [= <-]. right. destruct p. by left.
  - rewrite lookup_insert_ne by done. auto.
Qed.

Lemma collect_faces_lookup polys i l :
  NoDup polys.*1 → (i, l) ∈ polys → (collect_faces polys).2 !! i = Some l.
Proof.
  induction polys as [|p polys IH] using rev_ind; intros Hnd Hin.
  - by apply elem_of_nil in Hin.
  - rewrite fmap_app in Hnd. apply NoDup_app in Hnd as (Hnd & Hdisj & _).
    rewrite collect_faces_snoc. simpl.
    apply elem_of_app in Hin as [Hin|Hin%list_elem_of_singleton].
    + rewrite lookup_insert_ne; [by apply IH|]. intros Heq.
      apply (Hdisj i); [|rewrite <- Heq; by left].
      apply list_elem_of_fmap. by exists (i, l).
    + subst p. apply lookup_insert_eq.
Qed.

Lemma well_formed_mesh_in_range polys :
  well_formed_mesh polys →
  in_range (Z.of_nat (length polys)) (collect_faces polys).2.
Proof.
  intros [_ Hall]. apply map_Forall_lookup_2. intros i l Hl.
  apply collect_faces_value in Hl.
  by apply (proj1 (Forall_forall _ _) Hall (i, l)).
Qed.

(** When every listed id lies in the range, the ids in the shells are the
    ids of the range, each one once. *)
Lemma shells_ids_exact face_count (fc : gmap Z (list Z)) shells :
  in_range face_count fc →
  get_mesh_shells_ids face_count fc = Some shells →
  NoDup (concat shells) ∧ ∀ x, x ∈ concat shells ↔ 0 ≤ x < face_count.
Proof.
  intros Hr Hrun. pose proof (detect_shells_spec _ _ _ _ Hrun) as Hsh.
  split; [by destruct (shells_from_NoDup _ _ _ _ Hsh)|].
  intros x. split.
  - intros Hx. destruct (shells_from_reach _ _ _ _ Hsh x Hx) as (i & Hi & Hp).
    apply elem_of_seqZ in Hi.
    apply rtc_inv_r in Hp as [<-|(y & _ & Hyx)]; [lia|].
    by eapply in_range_edge.
  - intros Hx. destruct (shells_from_cover _ _ _ _ Hsh x) as [Hv|Hv];
      [apply elem_of_seqZ; lia | set_solver | done].
Qed.

Lemma get_mesh_shells_total obj polys : is_Some (get_mesh_shells obj polys).
Proof.
  unfold get_mesh_shells. destruct (collect_faces polys) as [face_count fc].
  by destruct (get_mesh_shells_ids_total face_count fc) as [shells ->].
Qed.

Lemma get_mesh_shells_exact obj polys names :
  well_formed_mesh polys → get_mesh_shells obj polys = Some names →
  NoDup (concat names) ∧
  ∀ nm, nm ∈ concat names ↔
    ∃ i, 0 ≤ i < Z.of_nat (length polys) ∧ nm = face_name obj i.
Proof.
  intros Hwf Hrun. pose proof (well_formed_mesh_in_range _ Hwf) as Hr.
  unfold get_mesh_shells in Hrun.
  pose proof (collect_faces_count polys) as Hcnt.
  destruct (collect_faces polys) as [face_count fc]. simpl in *. subst face_count.
  destruct (get_mesh_shells_ids (Z.of_nat (length polys)) fc)
    as [shells|] eqn:Hids; [|done].
  simpl in Hrun. injection Hrun as <-.
  destruct (shells_ids_exact _ _ _ Hr Hids) as [Hnd Hmem].
  change (map (λ shell_ids, map (face_name obj) shell_ids) shells)
    with (map (map (face_name obj)) shells).
  rewrite <- concat_map. split.
  - by apply (NoDup_fmap_2 (face_name obj)).
  - intros nm. rewrite (list_elem_of_fmap (face_name obj)). split.
    + intros (i & -> & Hi). exists i. split; [by apply Hmem | done].
    + intros (i & Hi & ->). exists i. split; [done | by apply Hmem].
Qed.
End WholeFunction.

(** X8: the loop over the polygons counts them, whatever their indices;
    and, when no index occurs twice, the map it builds holds for every
    index exactly the connected faces of that polygon. *)
Theorem collect_faces_spec (polys : list (Z * list Z)) :
  (collect_faces polys).1 = Z.of_nat (length polys) ∧
  (NoDup polys.*1 →
   ∀ i l, (collect_faces polys).2 !! i = Some l ↔ (i, l) ∈ polys).
Proof.
  split; [apply collect_faces_count|].
  intros Hnd i l.
  split; [apply collect_faces_value | by apply collect_faces_lookup].
Qed.

Lemma collect_faces_spec_witness :
  let polys := [(0, [1]); (1, [0]); (2, [])] in
  (collect_faces polys).1 = 3 ∧
  ∀ i l, (collect_faces polys).2 !! i = Some l ↔ (i, l) ∈ polys.
Proof.
  intros polys. destruct (collect_faces_spec polys) as [Hcount Hmap].
  split; [exact Hcount | apply Hmap; compute_done].
Defined.

(** X9: for one object, different face ids get different face names. *)
Theorem face_names_distinct (obj : string) (a b : Z) :
  a ≠ b → face_name obj a ≠ face_name obj b.
Proof. intros Hne Heq. by apply Hne, (inj (face_name obj)). Qed.

Lemma face_names_distinct_witness :
  face_name "cube" 1 ≠ face_name "cube" (-1).
Proof. apply (face_names_distinct "cube" 1 (-1)). lia. Defined.

(** X10: on a mesh whose polygons have the indices 0, 1, ... in order and
    are connected to polygons of the mesh only, [get_mesh_shells] returns
    shells in which the name of every face of the mesh occurs once, and
    nothing else occurs. *)
Theorem get_mesh_shells_partition (obj : string) (polys : list (Z * list Z)) :
  well_formed_mesh polys →
  ∃ names, get_mesh_shells obj polys = Some names ∧
    NoDup (concat names) ∧
    ∀ nm, nm ∈ concat names ↔
      ∃ i, 0 ≤ i < Z.of_nat (length polys) ∧ nm = face_name obj i.
Proof.
  intros Hwf. destruct (get_mesh_shells_total obj polys) as [names Hrun].
  exists names. split; [done|]. by apply get_mesh_shells_exact.
Qed.

Lemma get_mesh_shells_partition_witness :
  let polys := [(0, [1]); (1, [0]); (2, [])] in
  ∃ names, get_mesh_shells "cube" polys = Some names ∧
    NoDup (concat names) ∧
    ∀ nm, nm ∈ concat names ↔
      ∃ i, 0 ≤ i < 3 ∧ nm = face_name "cube" i.
Proof.
  intros polys. apply (get_mesh_shells_partition "cube" polys). compute_done.
Defined.

(** ** Material assignment *)

Import Materials.

(** *** The loops of the assignment *)

Section Assignment.
Context {World : Type} `{!Host World}.
Local Open Scope nat_scope.
Implicit Types (st : state World) (cs : list call) (sgs ms : list string).

Lemma backs_weaken cs cs' ms ms' sg :
  (∀ c, c ∈ cs → c ∈ cs') → (∀ m, m ∈ ms → m ∈ ms') →
  backs cs ms sg → backs cs' ms' sg.
Proof.
  intros Hcs Hms (m & Hm & Hex & Hsg). exists m. split_and!; [auto..|].
  destruct Hsg as [[rest Hsg]|Hsg]; [left; exists rest | right]; auto.
Qed.

Lemma resolve_material_run sgs m st :
  ∃ st' new add,
    resolve_material sgs m st = (Returned (sgs ++ add), st') ∧
    calls st' = calls st ++ new ∧
    checked new = [(m, objExists m (world st))] ∧
    errors new = [] ∧ assignments new = [] ∧
    (if objExists m (world st)
     then warnings new = [] ∧ ∃ sg, add = [sg] ∧ backs new [m] sg
     else world st' = world st ∧ add = [] ∧
          warnings new = [missing_message m]).
Proof.
  unfold resolve_material, mbind, M_bind, mret, M_ret, obj_exists. simpl.
  destruct (objExists m (world st)) eqn:Hex; simpl.
  - unfold list_connections; simpl.
    destruct (listConnections m (world st)) as [[|sg0 rest]|] eqn:Hl.
    1, 3: unfold sets_new; simpl;
      destruct (sets_create (m +:+ "SG") (world st)) as [sg w] eqn:Hc; simpl;
      eexists _,
        [CallObjExists m true; CallListConnections m _;
         CallSetsCreate (m +:+ "SG") sg;
         CallConnectAttr (m +:+ ".outColor") (sg +:+ ".surfaceShader")],
        [sg];
      (split; [reflexivity|]); simpl; rewrite <- !app_assoc;
      (split_and!; [done..|]); exists sg; (split; [done|]); exists m;
      (split_and!; [by left | by left |]); right; do 2 right; by left.
    eexists _, [CallObjExists m true; CallListConnections m _], [sg0].
    split; [reflexivity|]. simpl. rewrite <- !app_assoc.
    split_and!; [done..|]. exists sg0. split; [done|]. exists m.
    split_and!; [by left | by left |]. left. exists rest. right. by left.
  - eexists _, [CallObjExists m false; CallWarning (missing_message m)], [].
    rewrite app_nil_r. split; [reflexivity|]. simpl. rewrite <- !app_assoc.
    split_and!; done.
Qed.

Lemma checked_app cs1 cs2 : checked (cs1 ++ cs2) = checked cs1 ++ checked cs2.
Proof. apply omap_app. Qed.
Lemma warnings_app cs1 cs2 : warnings (cs1 ++ cs2) = warnings cs1 ++ warnings cs2.
Proof. apply omap_app. Qed.
Lemma errors_app cs1 cs2 : errors (cs1 ++ cs2) = errors cs1 ++ errors cs2.
Proof. apply omap_app. Qed.
Lemma assignments_app cs1 cs2 :
  assignments (cs1 ++ cs2) = assignments cs1 ++ assignments cs2.
Proof. apply omap_app. Qed.
Lemma missing_app cs1 cs2 : missing (cs1 ++ cs2) = missing cs1 ++ missing cs2.
Proof. unfold missing. by rewrite checked_app, filter_app, fmap_app. Qed.

(** The first loop: it raises nothing, queries every name once and in
    order, warns about the names that do not exist and collects one
    shading group for each name that exists. *)
Lemma resolve_loop_run ms sgs st :
  ∃ st' new add,
    for_each resolve_material ms sgs st = (Returned (sgs ++ add), st') ∧
    calls st' = calls st ++ new ∧
    (checked new).*1 = ms ∧
    warnings new = missing_message <$> missing new ∧
    errors new = [] ∧ assignments new = [] ∧
    (∀ sg, sg ∈ add → backs new ms sg) ∧
    (add = [] ↔ Forall (λ m, objExists m (world st) = false) ms) ∧
    (add = [] → world st' = world st).
Proof.
  revert sgs st. induction ms as [|m ms IH]; intros sgs st.
  - exists st, [], []. rewrite !app_nil_r. simpl.
    split_and!; try done. by intros sg ?%elem_of_nil.
  - destruct (resolve_material_run sgs m st)
      as (st1 & new1 & add1 & Hrun1 & Hc1 & Hchk1 & He1 & Ha1 & Hcase).
    destruct (IH (sgs ++ add1) st1)
      as (st2 & new2 & add2 & Hrun2 & Hc2 & Hchk2 & Hw2 & He2 & Ha2 & Hb2 & Hiff2 & Hw).
    exists st2, (new1 ++ new2), (add1 ++ add2).
    assert (for_each resolve_material (m :: ms) sgs st
            = (Returned (sgs ++ add1 ++ add2), st2)) as Hrun.
    { simpl. unfold mbind, M_bind at 1. rewrite Hrun1.
      by rewrite Hrun2, <- app_assoc. }
    split; [done|].
    split; [by rewrite Hc2, Hc1, <- app_assoc|].
    rewrite checked_app, warnings_app, errors_app, assignments_app, missing_app.
    rewrite !fmap_app, He1, He2, Ha1, Ha2, Hchk1, Hchk2, Hw2.
    destruct (objExists m (world st)) eqn:Hex.
    + destruct Hcase as (Hw1 & sg & -> & Hsg).
      assert (missing new1 = []) as -> by (unfold missing; by rewrite Hchk1).
      rewrite Hw1. split_and!; try done.
      * intros sg' [->%list_elem_of_singleton|Hsg']%elem_of_app.
        -- apply (backs_weaken new1 _ [m] _); [| |done].
           ++ intros c Hc. apply elem_of_app. by left.
           ++ intros x ->%list_elem_of_singleton. by left.
        -- apply (backs_weaken new2 _ ms _); [| |by apply Hb2].
           ++ intros c Hc. apply elem_of_app. by right.
           ++ intros x Hx. by right.
      * split; [done|]. intros Hall. apply Forall_cons in Hall as [Hm _].
        congruence.
    + destruct Hcase as (Hw1 & -> & Hwarn).
      assert (missing new1 = [m]) as -> by (unfold missing; by rewrite Hchk1).
      rewrite Hwarn. split_and!; try done.
      * intros sg' Hsg'. apply (backs_weaken new2 _ ms _); [| |by apply Hb2].
        -- intros c Hc. apply elem_of_app. by right.
        -- intros x Hx. by right.
      * simpl. rewrite Hiff2, Hw1. split.
        -- intros Hall. by apply Forall_cons.
        -- by intros [_ Hall]%Forall_cons.
      * simpl. intros Hadd. by rewrite Hw, Hw1.
Qed.

(** The second loop: with at least one shading group it raises nothing
    and makes one assignment per shell, in order, each to a group of the
    list. *)
Lemma assign_loop_run shells sgs st :
  sgs ≠ [] →
  ∃ st' new,
    for_each (assign_shell sgs) shells () st = (Returned (), st') ∧
    calls st' = calls st ++ new ∧
    checked new = [] ∧ warnings new = [] ∧ errors new = [] ∧
    Forall2 (λ faces a, a.1 = faces ∧ a.2 ∈ sgs) shells (assignments new).
Proof.
  intros Hne. revert st. induction shells as [|faces shells IH]; intros st.
  - exists st, []. rewrite app_nil_r. simpl. split_and!; done.
  - simpl. unfold mbind, M_bind at 1. unfold assign_shell at 1.
    unfold mbind, M_bind at 1. unfold choice.
    destruct (random_draw (world st)) as [r w] eqn:Hr.
    assert (r mod length sgs < length sgs) as Hlt.
    { apply Nat.mod_upper_bound. by destruct sgs. }
    destruct (lookup_lt_is_Some_2 sgs _ Hlt) as [sg Hsg]. rewrite Hsg.
    unfold sets_force_element. simpl.
    destruct (IH (State (sets_forceElement faces sg w)
                        (calls st ++ [CallSetsForceElement faces sg])))
      as (st' & new & Hrun & Hc & Hchk & Hw & He & Hall).
    exists st', (CallSetsForceElement faces sg :: new).
    split; [exact Hrun|]. simpl in Hc.
    split; [by rewrite Hc, <- app_assoc|].
    split_and!; try done. simpl. constructor; [|done].
    split; [done|]. by eapply list_elem_of_lookup_2.
Qed.
End Assignment.

(** *** The claims about material assignment *)

(** C9: with an empty material list the function raises the error at once:
    the host is left as it was, and the only call made is the call that
    reports the error, so that no shading group is queried, created,
    connected or assigned. *)
Theorem empty_material_list_aborts {World : Type} `{!Host World}
    (shells : list (list string)) (st : state World) :
  assign_random_materials_from_list shells [] st
  = (Raised empty_message, State (world st) (calls st ++ [CallError empty_message])).
Proof. reflexivity. Qed.

(** C10: with a non-empty material list, every name is queried once and in
    order; a name that does not exist gets a warning and nothing else.  The
    function raises the error about unavailable shading groups exactly when
    no name of the list exists, and then it has assigned nothing and left
    the host as it was.  Otherwise it completes without an error and makes
    one assignment per shell, in order, each to a shading group obtained
    for a name of the list that exists. *)
Theorem materials_resolved {World : Type} `{!Host World}
    (shells : list (list string)) (material_list : list string) (st : state World) :
  material_list ≠ [] →
  ∃ out st' new,
    assign_random_materials_from_list shells material_list st = (out, st') ∧
    calls st' = calls st ++ new ∧
    (checked new).*1 = material_list ∧
    warnings new = missing_message <$> missing new ∧
    (out = Raised unavailable_message
     ↔ Forall (λ m, objExists m (world st) = false) material_list) ∧
    (out = Raised unavailable_message →
     errors new = [unavailable_message] ∧ assignments new = [] ∧
     world st' = world st) ∧
    (out ≠ Raised unavailable_message →
     out = Returned () ∧ errors new = [] ∧
     Forall2 (λ faces a, a.1 = faces ∧ backs new material_list a.2)
       shells (assignments new)).
Proof.
  intros Hne.
  destruct (resolve_loop_run material_list [] st)
    as (st1 & new1 & add & Hrun1 & Hc1 & Hchk1 & Hw1 & He1 & Ha1 & Hb1 & Hiff & Hw).
  simpl in Hrun1.
  unfold assign_random_materials_from_list.
  rewrite bool_decide_eq_false_2 by done.
  unfold mbind at 1, M_bind at 1, mret at 1, M_ret at 1.
  unfold mbind at 1, M_bind at 1. rewrite Hrun1.
  destruct add as [|sg add].
  - rewrite bool_decide_eq_true_2 by done.
    exists (Raised unavailable_message), (log (CallError unavailable_message) st1),
      (new1 ++ [CallError unavailable_message]).
    split; [reflexivity|].
    split; [simpl; by rewrite Hc1, <- app_assoc|].
    rewrite checked_app, warnings_app, errors_app, assignments_app, missing_app.
    rewrite fmap_app, He1, Ha1, Hw1. simpl. rewrite !app_nil_r.
    split_and!; try done.
    + split; [intros _; by apply Hiff | done].
    + intros _. split_and!; [done..|]. by apply Hw.
  - set (sgs := sg :: add) in *.
    rewrite bool_decide_eq_false_2 by done.
    unfold mbind at 1, M_bind at 1, mret at 1, M_ret at 1.
    destruct (assign_loop_run shells sgs st1)
      as (st2 & new2 & Hrun2 & Hc2 & Hchk2 & Hw2 & He2 & Hall); [done|].
    rewrite Hrun2.
    exists (Returned ()), st2, (new1 ++ new2).
    split; [reflexivity|].
    split; [by rewrite Hc2, Hc1, <- app_assoc|].
    rewrite checked_app, warnings_app, errors_app, assignments_app, missing_app.
    assert (missing new2 = []) as -> by (unfold missing; by rewrite Hchk2).
    rewrite !fmap_app, He1, He2, Ha1, Hw1, Hw2, Hchk1, Hchk2. simpl.
    rewrite !app_nil_r.
    split_and!; try done.
    + split; [done|]. intros Hex. by apply Hiff in Hex.
    + intros _. split_and!; [done..|].
      eapply Forall2_impl; [exact Hall|]. intros faces a [Hf Hsg].
      split; [done|]. apply (backs_weaken new1 _ material_list _); [|done|auto].
      intros c Hc. apply elem_of_app. by left.
Qed.

Lemma materials_resolved_witness :
  ∃ out st' new,
    assign_random_materials_from_list sample_shells ["red"; "ghost"; "blue"]
      (State sample_scene []) = (out, st') ∧
    calls st' = [] ++ new ∧
    (checked new).*1 = ["red"; "ghost"; "blue"] ∧
    warnings new = missing_message <$> missing new ∧
    (out = Raised unavailable_message
     ↔ Forall (λ m, objExists m sample_scene = false) ["red"; "ghost"; "blue"]) ∧
    (out = Raised unavailable_message →
     errors new = [unavailable_message] ∧ assignments new = [] ∧
     world st' = sample_scene) ∧
    (out ≠ Raised unavailable_message →
     out = Returned () ∧ errors new = [] ∧
     Forall2 (λ faces a, a.1 = faces ∧ backs new ["red"; "ghost"; "blue"] a.2)
       sample_shells (assignments new)).
Proof.
  apply (materials_resolved sample_shells ["red"; "ghost"; "blue"]
           (State sample_scene [])).
  discriminate.
Defined.

(** The run on the sample scene: "ghost" is skipped with a warning, a shading
    group is created for "blue", and each shell gets one of the two groups. *)
Example sample_run :
  (assign_random_materials_from_list sample_shells ["red"; "ghost"; "blue"]
     (State sample_scene [])).1 = Returned () ∧
  calls (assign_random_materials_from_list sample_shells ["red"; "ghost"; "blue"]
     (State sample_scene [])).2 =
  [ CallObjExists "red" true;
    CallListConnections "red" (Some ["redSG"]);
    CallObjExists "ghost" false;
    CallWarning "Material does not exist: ghost";
    CallObjExists "blue" true;
    CallListConnections "blue" None;
    CallSetsCreate "blueSG" "blueSG";
    CallConnectAttr "blue.outColor" "blueSG.surfaceShader";
    CallSetsForceElement ["cube.f[0]"; "cube.f[1]"] "blueSG";
    CallSetsForceElement ["cube.f[2]"] "redSG" ].
Proof. split; by vm_compute. Qed.

(** *** Further properties of the assignment *)

Section MoreAssignment.
Context {World : Type} `{!Host World}.
Implicit Types (st : state World) (cs : list call) (sgs ms : list string).

Lemma for_each_singleton {A S} (body : S → A → M World S) (x : A) (acc : S) st :
  for_each body [x] acc st = body acc x st.
Proof.
  simpl. unfold mbind, M_bind, mret, M_ret.
  by destruct (body acc x st) as [[a|msg] st'].
Qed.

Lemma Forall2_same_group shells sg (l : list (list string * string)) :
  Forall2 (λ faces a, a.1 = faces ∧ a.2 ∈ [sg]) shells l →
  l = (λ faces, (faces, sg)) <$> shells.
Proof.
  induction 1 as [|faces [f g] shells l [Hf Hg%list_elem_of_singleton] _ IH];
    [done|].
  simpl in *. by rewrite IH, Hf, Hg.
Qed.

(** One iteration of the first loop on a name that exists and has a shading
    engine, or that does not exist: the host is not changed. *)
Lemma resolve_material_readonly sgs m st :
  (objExists m (world st) = true → is_Some (connected_group (world st) m)) →
  ∃ st' new,
    resolve_material sgs m st
    = (Returned (sgs ++ connected_groups (world st) [m]), st') ∧
    world st' = world st ∧ calls st' = calls st ++ new ∧
    Forall (λ c, ¬ creates c) new ∧ assignments new = [] ∧ errors new = [].
Proof.
  intros Hcon.
  unfold resolve_material, mbind, M_bind, mret, M_ret, obj_exists,
    connected_groups. simpl.
  destruct (objExists m (world st)) eqn:Hex; simpl.
  - destruct (Hcon eq_refl) as [sg Hsg]. rewrite Hsg.
    unfold connected_group in Hsg. unfold list_connections. simpl.
    destruct (listConnections m (world st)) as [[|sg0 rest]|] eqn:Hl; try done.
    injection Hsg as ->.
    eexists _, [CallObjExists m true; CallListConnections m _].
    split; [reflexivity|]. simpl. rewrite <- !app_assoc.
    split_and!; [done.. | | done | done].
    repeat (apply Forall_cons_2; [simpl; tauto|]); apply Forall_nil_2.
  - eexists _, [CallObjExists m false; CallWarning (missing_message m)].
    rewrite app_nil_r.
    split; [reflexivity|]. simpl. rewrite <- !app_assoc.
    split_and!; [done.. | | done | done].
    repeat (apply Forall_cons_2; [simpl; tauto|]); apply Forall_nil_2.
Qed.

Lemma resolve_loop_readonly ms sgs st :
  all_connected (world st) ms →
  ∃ st' new,
    for_each resolve_material ms sgs st
    = (Returned (sgs ++ connected_groups (world st) ms), st') ∧
    world st' = world st ∧ calls st' = calls st ++ new ∧
    Forall (λ c, ¬ creates c) new ∧ assignments new = [] ∧ errors new = [].
Proof.
  revert sgs st. induction ms as [|m ms IH]; intros sgs st Hall.
  - exists st, []. rewrite !app_nil_r. by split_and!.
  - apply Forall_cons in Hall as [Hm Hall].
    destruct (resolve_material_readonly sgs m st Hm)
      as (st1 & new1 & Hrun1 & Hw1 & Hc1 & Hn1 & Ha1 & He1).
    rewrite <- Hw1 in Hall.
    destruct (IH (sgs ++ connected_groups (world st) [m]) st1 Hall)
      as (st2 & new2 & Hrun2 & Hw2 & Hc2 & Hn2 & Ha2 & He2).
    exists st2, (new1 ++ new2). split_and!.
    + cbn [for_each]. unfold mbind, M_bind at 1. rewrite Hrun1, Hrun2, Hw1.
      change (m :: ms) with ([m] ++ ms). unfold connected_groups.
      by rewrite omap_app, app_assoc.
    + by rewrite Hw2.
    + by rewrite Hc2, Hc1, <- app_assoc.
    + by apply Forall_app.
    + by rewrite assignments_app, Ha1, Ha2.
    + by rewrite errors_app, He1, He2.
Qed.

Lemma assign_loop_no_creation shells sgs st :
  sgs ≠ [] →
  ∃ st' new,
    for_each (assign_shell sgs) shells () st = (Returned (), st') ∧
    calls st' = calls st ++ new ∧ Forall (λ c, ¬ creates c) new ∧
    Forall2 (λ faces a, a.1 = faces ∧ a.2 ∈ sgs) shells (assignments new).
Proof.
  intros Hne. revert st. induction shells as [|faces shells IH]; intros st.
  - exists st, []. rewrite app_nil_r. simpl. by split_and!.
  - simpl. unfold mbind, M_bind at 1. unfold assign_shell at 1.
    unfold mbind, M_bind at 1. unfold choice.
    destruct (random_draw (world st)) as [r w] eqn:Hr.
    assert (r mod length sgs < length sgs)%nat as Hlt.
    { apply Nat.mod_upper_bound. by destruct sgs. }
    destruct (lookup_lt_is_Some_2 sgs _ Hlt) as [sg Hsg]. rewrite Hsg.
    unfold sets_force_element. simpl.
    destruct (IH (State (sets_forceElement faces sg w)
                        (calls st ++ [CallSetsForceElement faces sg])))
      as (st' & new & Hrun & Hc & Hn & Hall).
    exists st', (CallSetsForceElement faces sg :: new).
    split; [exact Hrun|]. simpl in Hc.
    split; [by rewrite Hc, <- app_assoc|].
    split; [constructor; [by intros [] | done]|].
    simpl. constructor; [|done].
    split; [done|]. by eapply list_elem_of_lookup_2.
Qed.
End MoreAssignment.

(** X11: with a list of one name that exists, the function completes and
    assigns every shell, in order, to one and the same shading group: the
    first one connected to the material, or the one created for it. *)
Theorem single_material_one_group {World : Type} `{!Host World}
    (shells : list (list string)) (m : string) (st : state World) :
  objExists m (world st) = true →
  ∃ sg st' new,
    assign_random_materials_from_list shells [m] st = (Returned (), st') ∧
    calls st' = calls st ++ new ∧
    assignments new = (λ faces, (faces, sg)) <$> shells ∧
    backs new [m] sg.
Proof.
  intros Hex.
  destruct (resolve_material_run [] m st)
    as (st1 & new1 & add & Hrun1 & Hc1 & _ & _ & Ha1 & Hcase).
  rewrite Hex in Hcase. destruct Hcase as (_ & sg & -> & Hsg).
  simpl in Hrun1.
  destruct (assign_loop_run shells [sg] st1)
    as (st2 & new2 & Hrun2 & Hc2 & _ & _ & _ & Hall); [done|].
  exists sg, st2, (new1 ++ new2). split_and!.
  - unfold assign_random_materials_from_list.
    rewrite bool_decide_eq_false_2 by done.
    unfold mbind at 1, M_bind at 1, mret at 1, M_ret at 1.
    unfold mbind at 1, M_bind at 1.
    rewrite for_each_singleton, Hrun1.
    rewrite bool_decide_eq_false_2 by done.
    unfold mbind at 1, M_bind at 1, mret at 1, M_ret at 1. exact Hrun2.
  - by rewrite Hc2, Hc1, <- app_assoc.
  - rewrite assignments_app, Ha1. simpl. by apply Forall2_same_group.
  - apply (backs_weaken new1 _ [m] _); [|done|done].
    intros c Hc. apply elem_of_app. by left.
Qed.

Lemma single_material_one_group_witness :
  ∃ sg st' new,
    assign_random_materials_from_list sample_shells ["blue"]
      (State sample_scene []) = (Returned (), st') ∧
    calls st' = [] ++ new ∧
    assignments new = (λ faces, (faces, sg)) <$> sample_shells ∧
    backs new ["blue"] sg.
Proof.
  apply (single_material_one_group sample_shells "blue" (State sample_scene [])).
  reflexivity.
Defined.

(** X12: when every name of the list that exists already has a shading
    engine connected, the function creates no shading group and connects
    none; if it completes, every shell is assigned, in order, to the first
    connected engine of one of these names. *)
Theorem no_group_created_when_connected {World : Type} `{!Host World}
    (shells : list (list string)) (material_list : list string)
    (st : state World) :
  all_connected (world st) material_list →
  ∃ out st' new,
    assign_random_materials_from_list shells material_list st = (out, st') ∧
    calls st' = calls st ++ new ∧
    Forall (λ c, ¬ creates c) new ∧
    (out = Returned () →
     Forall2 (λ faces a, a.1 = faces ∧
                         a.2 ∈ connected_groups (world st) material_list)
       shells (assignments new)).
Proof.
  intros Hall. unfold assign_random_materials_from_list.
  destruct material_list as [|m ms].
  { rewrite bool_decide_eq_true_2 by done.
    eexists _, _, [CallError empty_message]. split; [reflexivity|].
    split_and!; [done | | done].
    repeat (apply Forall_cons_2; [simpl; tauto|]); apply Forall_nil_2. }
  rewrite bool_decide_eq_false_2 by done.
  unfold mbind at 1, M_bind at 1, mret at 1, M_ret at 1.
  unfold mbind at 1, M_bind at 1.
  destruct (resolve_loop_readonly (m :: ms) [] st Hall)
    as (st1 & new1 & Hrun1 & Hw1 & Hc1 & Hn1 & Ha1 & _).
  rewrite app_nil_l in Hrun1. rewrite Hrun1.
  destruct (connected_groups (world st) (m :: ms)) as [|sg sgs] eqn:Hg.
  - rewrite bool_decide_eq_true_2 by done.
    eexists _, _, (new1 ++ [CallError unavailable_message]).
    split; [reflexivity|]. split_and!.
    + simpl. by rewrite Hc1, <- app_assoc.
    + apply Forall_app. split; [done|]. repeat (apply Forall_cons_2; [simpl; tauto|]); apply Forall_nil_2.
    + done.
  - rewrite bool_decide_eq_false_2 by done.
    unfold mbind at 1, M_bind at 1, mret at 1, M_ret at 1.
    destruct (assign_loop_no_creation shells (sg :: sgs) st1)
      as (st2 & new2 & Hrun2 & Hc2 & Hn2 & Hall2); [done|].
    rewrite Hrun2. exists (Returned ()), st2, (new1 ++ new2).
    split; [reflexivity|]. split_and!.
    + by rewrite Hc2, Hc1, <- app_assoc.
    + by apply Forall_app.
    + intros _. by rewrite assignments_app, Ha1.
Qed.

Lemma no_group_created_when_connected_witness :
  ∃ out st' new,
    assign_random_materials_from_list sample_shells ["red"; "ghost"; "red"]
      (State sample_scene []) = (out, st') ∧
    calls st' = [] ++ new ∧
    Forall (λ c, ¬ creates c) new ∧
    (out = Returned () →
     Forall2 (λ faces a, a.1 = faces ∧
                         a.2 ∈ connected_groups sample_scene ["red"; "ghost"; "red"])
       sample_shells (assignments new)).
Proof.
  apply (no_group_created_when_connected sample_shells ["red"; "ghost"; "red"]
           (State sample_scene [])).
  unfold all_connected. simpl. repeat constructor; try done.
  all: intros _; by eexists.
Defined.

(** ** The callbacks of the window *)

Import Glue.

Section CallbackFacts.
Context {World : Type} `{!Host World} `{!Gui World}.
Implicit Types (s : session World) (st : state World).

Lemma get_mesh_shells_names_eq obj polys :
  get_mesh_shells obj polys = Some (get_mesh_shells_names obj polys).
Proof.
  unfold get_mesh_shells_names, get_mesh_shells.
  destruct (collect_faces polys) as [face_count fc].
  by destruct (get_mesh_shells_ids_total face_count fc) as [shells ->].
Qed.

Lemma Forall2_fst_shells (sgs : list string) shells
    (l : list (list string * string)) :
  Forall2 (λ faces a, a.1 = faces ∧ a.2 ∈ sgs) shells l → l.*1 = shells.
Proof. induction 1 as [|faces a shells l [Hf _] _ IH]; [done|]. simpl. by f_equal. Qed.

(** With a name of the list that exists, the assignment completes and
    assigns the shells, in order. *)
Lemma assign_completes shells ms st :
  Exists (λ m, objExists m (world st) = true) ms →
  ∃ st' new,
    assign_random_materials_from_list shells ms st = (Returned (), st') ∧
    calls st' = calls st ++ new ∧ (assignments new).*1 = shells.
Proof.
  intros Hex.
  assert (ms ≠ []) as Hne by (by destruct Hex).
  destruct (resolve_loop_run ms [] st)
    as (st1 & new1 & add & Hrun1 & Hc1 & _ & _ & _ & Ha1 & _ & Hiff & _).
  simpl in Hrun1.
  assert (add ≠ []) as Hadd.
  { intros Hadd%Hiff. apply Exists_exists in Hex as (m & Hm & Hex).
    apply (proj1 (Forall_forall _ _) Hadd) in Hm. congruence. }
  destruct (assign_loop_run shells add st1 Hadd)
    as (st2 & new2 & Hrun2 & Hc2 & _ & _ & _ & Hall).
  exists st2, (new1 ++ new2). split_and!.
  - unfold assign_random_materials_from_list.
    rewrite bool_decide_eq_false_2 by done.
    unfold mbind at 1, M_bind at 1, mret at 1, M_ret at 1.
    unfold mbind at 1, M_bind at 1. rewrite Hrun1.
    rewrite bool_decide_eq_false_2 by done.
    unfold mbind at 1, M_bind at 1, mret at 1, M_ret at 1. exact Hrun2.
  - by rewrite Hc2, Hc1, <- app_assoc.
  - rewrite assignments_app, Ha1. simpl. by eapply Forall2_fst_shells.
Qed.

Lemma empty_material_list_eval shells st :
  assign_random_materials_from_list shells [] st
  = (Raised empty_message, log (CallError empty_message) st).
Proof. reflexivity. Qed.

Lemma append_new_run existing selected s :
  ∃ s', append_new existing selected s = (Returned (), s') ∧
    gui s' = gui s ++
      (GuiListAppend "materialList" <$> filter (λ m, m ∉ existing) selected) ∧
    calls (host s') = calls (host s) ∧ selected_object s' = selected_object s.
Proof.
  revert s. induction selected as [|mat selected IH]; intros s.
  - exists s. simpl. by rewrite app_nil_r.
  - cbn [append_new]. rewrite filter_cons.
    destruct (decide (mat ∈ existing)) as [Hin|Hin].
    + rewrite bool_decide_eq_true_2 by done.
      rewrite decide_False by (intros Hn; by apply Hn).
      unfold mbind, G_bind, mret, G_ret. apply IH.
    + rewrite bool_decide_eq_false_2 by done. rewrite decide_True by done.
      unfold mbind, G_bind, list_append.
      destruct (IH (Session
        (State (textScrollList_append "materialList" mat (world (host s)))
               (calls (host s)))
        (gui s ++ [GuiListAppend "materialList" mat]) (selected_object s)))
        as (s' & Hrun & Hg & Hc & Hso).
      exists s'. split; [exact Hrun|]. simpl in *.
      by rewrite Hg, <- app_assoc.
Qed.
End CallbackFacts.

(** X13: as long as nothing defines the global [selected_object] (the file
    does not), the callback of the button "Select" never edits the object
    field: with nothing selected it warns and returns, and with a selection
    it raises a [NameError] and leaves everything as it was. *)
Theorem select_object_button_undefined_global {World : Type}
    `{!Host World} `{!Gui World} (s : session World) :
  selected_object s = None →
  ∃ out s', select_object_button s = (out, s') ∧
    gui s' = gui s ∧ world (host s') = world (host s) ∧
    (truthy (ls_selection (world (host s))) = true →
     out = Raised "name 'selected_object' is not defined" ∧ s' = s) ∧
    (truthy (ls_selection (world (host s))) = false →
     out = Returned () ∧
     calls (host s') = calls (host s) ++ [CallWarning nothing_selected_message]).
Proof.
  intros Hglobal.
  unfold select_object_button, mbind, G_bind, query, set_selected_object. simpl.
  destruct (ls_selection (world (host s))) as [[|first more]|]; simpl.
  1, 3: eexists _, _; split; [reflexivity|]; simpl; by split_and!.
  rewrite Hglobal. eexists _, _. split; [reflexivity|]. by split_and!.
Qed.

Lemma select_object_button_undefined_global_witness :
  ∃ out s', select_object_button sample_session = (out, s') ∧
    gui s' = [] ∧ world (host s') = sample_desk ∧
    (truthy (ls_selection sample_desk) = true →
     out = Raised "name 'selected_object' is not defined" ∧ s' = sample_session) ∧
    (truthy (ls_selection sample_desk) = false →
     out = Returned () ∧
     calls (host s') = [] ++ [CallWarning nothing_selected_message]).
Proof.
  apply (select_object_button_undefined_global sample_session). reflexivity.
Defined.

(** X14: when neither the material list of the window nor the selected
    materials contain a name twice, [add_selected_materials] appends
    exactly the selected materials that the list does not hold: the list
    with the appended items has no name twice, and it holds the old items
    and the selected materials. *)
Theorem add_selected_materials_no_duplicates {World : Type}
    `{!Host World} `{!Gui World} (s : session World) :
  let existing :=
    default [] (textScrollList_allItems "materialList" (world (host s))) in
  let selected := default [] (ls_selected_materials (world (host s))) in
  NoDup existing → NoDup selected →
  ∃ s' added, add_selected_materials s = (Returned (), s') ∧
    gui s' = gui s ++ (GuiListAppend "materialList" <$> added) ∧
    NoDup (existing ++ added) ∧
    ∀ m, m ∈ existing ++ added ↔ m ∈ existing ∨ m ∈ selected.
Proof.
  intros existing selected Hex Hsel.
  assert (∃ s', add_selected_materials s = (Returned (), s') ∧
    gui s' = gui s ++
      (GuiListAppend "materialList" <$> filter (λ m, m ∉ existing) selected))
    as (s' & Hrun & Hgui).
  { unfold add_selected_materials, mbind, G_bind, query. simpl.
    subst selected.
    destruct (ls_selected_materials (world (host s))) as [[|mat l]|]; simpl.
    1, 3: exists s; by rewrite app_nil_r.
    destruct (append_new_run existing (mat :: l) s) as (s' & Hrun & Hg & _).
    exists s'. by split. }
  exists s', (filter (λ m, m ∉ existing) selected). split_and!; [done..| |].
  - apply NoDup_app. split_and!; [done | | by apply NoDup_filter].
    intros m Hm [Hn _]%list_elem_of_filter. by apply Hn.
  - intros m. rewrite elem_of_app, list_elem_of_filter.
    destruct (decide (m ∈ existing)); tauto.
Qed.

Lemma add_selected_materials_no_duplicates_witness :
  let existing := default [] (textScrollList_allItems "materialList" sample_desk) in
  let selected := default [] (ls_selected_materials sample_desk) in
  existing = ["red"; "ghost"] ∧ selected = ["blue"] ∧
  ∃ s' added, add_selected_materials sample_session = (Returned (), s') ∧
    gui s' = [] ++ (GuiListAppend "materialList" <$> added) ∧
    NoDup (existing ++ added) ∧
    ∀ m, m ∈ existing ++ added ↔ m ∈ existing ∨ m ∈ selected.
Proof.
  intros existing selected. split_and!; [reflexivity..|].
  apply (add_selected_materials_no_duplicates sample_session); compute_done.
Defined.

(** X15: when the object field is empty, or names an object that does not
    exist, is not a transform or has no mesh shape, the callback of the
    button "Assign" warns once and returns: the host is as it was, nothing
    is printed, no clock is read, and no shading group is created or
    assigned. *)
Theorem invalid_selection_only_warns {World : Type}
    `{!Host World} `{!Gui World} (s : session World) :
  ¬ valid_selection (world (host s)) →
  ∃ s' new msg, apply_materials_button s = (Returned (), s') ∧
    world (host s') = world (host s) ∧ gui s' = gui s ∧
    calls (host s') = calls (host s) ++ new ∧
    warnings new = [msg] ∧ (msg = no_object_message ∨ msg = no_mesh_message) ∧
    assignments new = [] ∧ Forall (λ c, ¬ creates c) new.
Proof.
  intros Hinv.
  unfold apply_materials_button, mbind, G_bind, mret, G_ret, query. simpl.
  set (obj := textField_text "objectField" (world (host s))) in *.
  destruct (decide (obj = "")) as [Hobj|Hobj].
  { rewrite bool_decide_eq_true_2 by done. simpl.
    eexists _, [CallWarning no_object_message], no_object_message.
    split; [reflexivity|]. simpl. split_and!; try done; [by left|].
    repeat (apply Forall_cons_2; [simpl; tauto|]); apply Forall_nil_2. }
  rewrite bool_decide_eq_false_2 by done.
  unfold lift at 1, obj_exists. simpl.
  destruct (objExists obj (world (host s))) eqn:Hex; simpl.
  2: { eexists _, [CallObjExists obj false; CallWarning no_object_message],
         no_object_message.
       split; [reflexivity|]. simpl. rewrite <- app_assoc.
       split_and!; try done; [by left|].
       repeat (apply Forall_cons_2; [simpl; tauto|]); apply Forall_nil_2. }
  destruct (objectType_isType obj "transform" (world (host s))) eqn:Htr; simpl.
  2: { eexists _, [CallObjExists obj true; CallWarning no_mesh_message],
         no_mesh_message.
       split; [reflexivity|]. simpl. rewrite <- app_assoc.
       split_and!; try done; [by right|].
       repeat (apply Forall_cons_2; [simpl; tauto|]); apply Forall_nil_2. }
  destruct (truthy (listRelatives_shapes_mesh obj (world (host s)))) eqn:Hsh;
    simpl.
  { exfalso. apply Hinv. by split_and!. }
  eexists _, [CallObjExists obj true; CallWarning no_mesh_message],
    no_mesh_message.
  split; [reflexivity|]. simpl. rewrite <- app_assoc.
  split_and!; try done; [by right|].
  repeat (apply Forall_cons_2; [simpl; tauto|]); apply Forall_nil_2.
Qed.

Lemma invalid_selection_only_warns_witness :
  let s := Session (State (Desk sample_scene "red" [] [] ["cube"] [] 0) []) [] None in
  ∃ s' new msg, apply_materials_button s = (Returned (), s') ∧
    world (host s') = world (host s) ∧ gui s' = gui s ∧
    calls (host s') = calls (host s) ++ new ∧
    warnings new = [msg] ∧ (msg = no_object_message ∨ msg = no_mesh_message) ∧
    assignments new = [] ∧ Forall (λ c, ¬ creates c) new.
Proof.
  intros s. apply (invalid_selection_only_warns s). compute_done.
Defined.

Section ValidSelection.
Context {World : Type} `{!Host World} `{!Gui World}.

(** With a valid selection the callback reads the clock, computes the
    shells, prints the first timing line, reads the clock again and runs
    the assignment on the shells. *)
Lemma apply_materials_button_valid (s : session World) :
  let w := world (host s) in
  let obj := textField_text "objectField" w in
  let w1 := (time_time w).2 in
  let w3 := (time_time (time_time w1).2).2 in
  let shells := get_mesh_shells_names obj (mesh_polygons obj w1) in
  let items := default [] (textScrollList_allItems "materialList" w) in
  let line := timing_line "get_mesh_shells" (time_time w).1 (time_time w1).1 in
  let st := State w3 (calls (host s) ++ [CallObjExists obj true]) in
  valid_selection w →
  apply_materials_button s =
    match assign_random_materials_from_list shells items st with
    | (Returned _, st') =>
      (Returned (),
       Session (State (time_time (world st')).2 (calls st'))
         (gui s ++ [GuiPrint line;
                    GuiPrint (timing_line "assign_random_materials_from_list"
                                (time_time (time_time w1).2).1
                                (time_time (world st')).1)])
         (selected_object s))
    | (Raised msg, st') =>
      (Raised msg, Session st' (gui s ++ [GuiPrint line]) (selected_object s))
    end.
Proof.
  intros w obj w1 w3 shells items line st (Hobj & Hex & Htr & Hsh).
  subst line st shells items w3 w1 obj w.
  unfold apply_materials_button, mbind, G_bind, mret, G_ret, query. simpl.
  rewrite bool_decide_eq_false_2 by done.
  unfold lift at 1, obj_exists. simpl. rewrite Hex. simpl.
  rewrite Htr. simpl. rewrite Hsh. simpl.
  unfold clock at 1. simpl.
  destruct (time_time (world (host s))) as [t1 w1]. simpl.
  unfold clock at 1. simpl.
  destruct (time_time w1) as [t2 w2]. simpl.
  unfold clock at 1. simpl.
  destruct (time_time w2) as [t3 w3]. simpl.
  unfold lift. simpl.
  destruct (assign_random_materials_from_list _ _ _) as [[[]|msg] st'];
    simpl; [|done].
  unfold clock. simpl.
  destruct (time_time (world st')) as [t4 w4]. simpl.
  unfold print. simpl. by rewrite <- app_assoc.
Qed.
End ValidSelection.

(** X16: with a valid selection and an empty material list, the callback
    raises the error of the empty list only after the shells were computed
    and the first timing line was printed: the only line printed is
    "get_mesh_shells - <seconds> sec" for the first two readings of the
    clock; the second timing line is not printed, and nothing is assigned
    or created. *)
Theorem empty_list_raises_after_detection {World : Type}
    `{!Host World} `{!Gui World} (s : session World) :
  let w := world (host s) in
  let t1 := (time_time w).1 in
  let t2 := (time_time (time_time w).2).1 in
  valid_selection w →
  truthy (textScrollList_allItems "materialList" w) = false →
  ∃ s' new, apply_materials_button s = (Raised empty_message, s') ∧
    gui s' = gui s ++
      [GuiPrint ("get_mesh_shells - " +:+ format_seconds t1 t2 +:+ " sec")] ∧
    calls (host s') = calls (host s) ++ new ∧
    errors new = [empty_message] ∧ assignments new = [] ∧
    Forall (λ c, ¬ creates c) new.
Proof.
  intros w t1 t2 Hvalid Hitems.
  rewrite (apply_materials_button_valid s Hvalid).
  assert (default [] (textScrollList_allItems "materialList" (world (host s)))
          = []) as ->.
  { fold w. by destruct (textScrollList_allItems _ _) as [[|??]|]. }
  rewrite empty_material_list_eval. simpl.
  eexists _, [CallObjExists _ true; CallError empty_message].
  split; [reflexivity|]. simpl. rewrite <- app_assoc.
  split_and!; try done.
  repeat (apply Forall_cons_2; [simpl; tauto|]); apply Forall_nil_2.
Qed.

Lemma empty_list_raises_after_detection_witness :
  let s := Session (State (Desk sample_scene "cube" [] [] ["cube"]
                             [(0, [1]); (1, [0])] 5) []) [] None in
  let w := world (host s) in
  let t1 := (time_time w).1 in
  let t2 := (time_time (time_time w).2).1 in
  format_seconds t1 t2 = "1.0000" ∧
  ∃ s' new, apply_materials_button s = (Raised empty_message, s') ∧
    gui s' = gui s ++
      [GuiPrint ("get_mesh_shells - " +:+ format_seconds t1 t2 +:+ " sec")] ∧
    calls (host s') = calls (host s) ++ new ∧
    errors new = [empty_message] ∧ assignments new = [] ∧
    Forall (λ c, ¬ creates c) new.
Proof.
  intros s w t1 t2. split; [reflexivity|].
  apply (empty_list_raises_after_detection s); compute_done.
Defined.

(** X17: with a valid selection, a mesh whose polygons have the indices
    0, 1, ... in order and are connected to polygons of the mesh only, and a
    material list with a name that exists, the callback of the button
    "Assign" completes and prints its two timing lines,
    "get_mesh_shells - <seconds> sec" for the first two readings of the
    clock and "assign_random_materials_from_list - <seconds> sec" for the
    third reading and the reading that follows the assignment; and it
    assigns every face of the object exactly once: the face lists of the
    assignments hold the name of every face of the mesh once, and nothing
    else. *)
Theorem apply_assigns_every_face_once {World : Type}
    `{!Host World} `{!Gui World} (s : session World) :
  let w := world (host s) in
  let obj := textField_text "objectField" w in
  let w1 := (time_time w).2 in
  let w3 := (time_time (time_time w1).2).2 in
  let t1 := (time_time w).1 in
  let t2 := (time_time w1).1 in
  let t3 := (time_time (time_time w1).2).1 in
  let polys := mesh_polygons obj w1 in
  let items := default [] (textScrollList_allItems "materialList" w) in
  valid_selection w → well_formed_mesh polys →
  Exists (λ m, objExists m w3 = true) items →
  ∃ s' new w4, apply_materials_button s = (Returned (), s') ∧
    world (host s') = (time_time w4).2 ∧
    gui s' = gui s ++
      [GuiPrint ("get_mesh_shells - " +:+ format_seconds t1 t2 +:+ " sec");
       GuiPrint ("assign_random_materials_from_list - " +:+
                 format_seconds t3 (time_time w4).1 +:+ " sec")] ∧
    calls (host s') = calls (host s) ++ new ∧
    NoDup (concat (assignments new).*1) ∧
    ∀ nm, nm ∈ concat (assignments new).*1 ↔
      ∃ i, 0 ≤ i < Z.of_nat (length polys) ∧ nm = face_name obj i.
Proof.
  intros w obj w1 w3 t1 t2 t3 polys items Hvalid Hwf Hex.
  rewrite (apply_materials_button_valid s Hvalid).
  fold w obj w1 w3 polys items.
  set (st := State w3 (calls (host s) ++ [CallObjExists obj true])).
  destruct (assign_completes (get_mesh_shells_names obj polys) items st Hex)
    as (st' & new & Hrun & Hc & Hfaces).
  rewrite Hrun.
  eexists _, (CallObjExists obj true :: new), (world st').
  split; [reflexivity|]. simpl.
  split; [done|]. split; [done|].
  split; [by rewrite Hc; subst st; simpl; rewrite <- app_assoc|].
  rewrite Hfaces.
  apply (get_mesh_shells_exact obj polys); [done|].
  apply get_mesh_shells_names_eq.
Qed.

Lemma apply_assigns_every_face_once_witness :
  let s := sample_session in
  let w := world (host s) in
  let obj := textField_text "objectField" w in
  let w1 := (time_time w).2 in
  let t1 := (time_time w).1 in
  let t2 := (time_time w1).1 in
  let t3 := (time_time (time_time w1).2).1 in
  let polys := mesh_polygons obj w1 in
  obj = "cube" ∧ polys = [(0, [1]); (1, [0]); (2, [])] ∧
  format_seconds t1 t2 = "1.0000" ∧
  ∃ s' new w4, apply_materials_button s = (Returned (), s') ∧
    world (host s') = (time_time w4).2 ∧
    gui s' = gui s ++
      [GuiPrint ("get_mesh_shells - " +:+ format_seconds t1 t2 +:+ " sec");
       GuiPrint ("assign_random_materials_from_list - " +:+
                 format_seconds t3 (time_time w4).1 +:+ " sec")] ∧
    calls (host s') = calls (host s) ++ new ∧
    NoDup (concat (assignments new).*1) ∧
    ∀ nm, nm ∈ concat (assignments new).*1 ↔
      ∃ i, 0 ≤ i < Z.of_nat (length polys) ∧ nm = face_name obj i.
Proof.
  intros s w obj w1 t1 t2 t3 polys. split_and!; [reflexivity..|].
  apply (apply_assigns_every_face_once s); compute_done.
Defined.
